(** * cznicb: the in-memory KVStore adapter of bleve (index/store/cznicb/cznicb.go)

    A shallow embedding of the Store, Iterator and Batch types of package
    [cznicb] and proofs of the properties stated for them.  The program is
    sequentialised: the two mutexes only delimit critical sections, so every
    operation is a function on the state it locks. *)

From Stdlib Require Import ZArith NArith List Lia.
From Stdlib Require Import Strings.Byte Strings.String.
From stdpp Require Import base option list gmap strings.

Local Open Scope Z_scope.

(** ** Go values *)

(** [[]byte]: the nil slice ([None]) or a slice with a content ([Some l]);
    [[]byte{}] is [Some []], which Go tells apart from nil. *)
Definition bytes : Type := option (list byte).

Definition content (x : bytes) : list byte :=
  match x with Some l => l | None => [] end.

(** [string(k)] and [[]byte(key)]. *)
Definition string_of_bytes (k : bytes) : string := string_of_list_byte (content k).
Definition bytes_of_string (key : string) : bytes := Some (list_byte_of_string key).

(** [interface{}] as this package uses it: the nil interface, or an interface
    whose dynamic type is [[]byte].  An interface holding the nil slice is
    [IBytes None]; it is not the nil interface. *)
Inductive iface : Type :=
| INil
| IBytes (x : bytes).

(** [v == nil] on an interface. *)
Definition iface_is_nil (v : iface) : bool :=
  match v with INil => true | IBytes _ => false end.

(** [v.([]byte)]; the assertion panics on the nil interface ([None]). *)
Definition assert_bytes (v : iface) : option bytes :=
  match v with INil => None | IBytes x => Some x end.

(** Error values: the package's sentinel, [io.EOF] of the enumerator, and
    the errors merge operators report. *)
Inductive err : Type :=
| iteratorDoneErr
| EOF
| OperErr (msg : string).

(** [error]: nil or an error value. *)
Definition error : Type := option err.

Definition err_eqb (a b : err) : bool :=
  match a, b with
  | iteratorDoneErr, iteratorDoneErr => true
  | EOF, EOF => true
  | OperErr x, OperErr y => String.eqb x y
  | _, _ => false
  end.

(** [e == iteratorDoneErr]. *)
Definition is_iteratorDoneErr (e : error) : bool :=
  match e with Some x => err_eqb x iteratorDoneErr | None => false end.

(** A call either returns or panics. *)
Inductive outcome (A : Type) : Type :=
| Ok (a : A)
| Panic.
Arguments Ok {A} a.
Arguments Panic {A}.

(** ** [bytes.Compare] and [itemCompare] *)

Fixpoint lex_compare (a c : list byte) : comparison :=
  match a, c with
  | [], [] => Eq
  | [], _ :: _ => Lt
  | _ :: _, [] => Gt
  | x :: a', y :: c' =>
      match N.compare (Byte.to_N x) (Byte.to_N y) with
      | Eq => lex_compare a' c'
      | o => o
      end
  end.

(** [bytes.Compare]: 0, -1 or +1; a nil argument is an empty slice. *)
Definition bytes_Compare (a c : bytes) : Z :=
  match lex_compare (content a) (content c) with
  | Eq => 0
  | Lt => -1
  | Gt => 1
  end.

(** [itemCompare]; the keys of the tree all have dynamic type [[]byte]. *)
Definition itemCompare (a c : bytes) : Z := bytes_Compare a c.

(** The sign of [itemCompare], which is all the tree looks at. *)
Definition cmp (a c : bytes) : comparison := Z.compare (itemCompare a c) 0.

(** ** The ordered map *)

(** Modelled from the spec: the ordered map [b.Tree] of github.com/cznic/b
    and its [b.Enumerator], an external collaborator whose source is not part
    of this package.  The spec gives its contract: keys kept unique and in
    the order of the injected comparison, [insertOrReplace(key,value)],
    [delete(key)], [get(key) -> value,present], [seek(key) -> cursor]
    positioned at the first key greater than or equal to [key],
    [seekFirst() -> cursor] (failing on an empty map) and a cursor whose
    [next() -> key,value,done].  The tree is the list of its entries in key
    order; a cursor is an index into that list. *)
Definition Tree : Type := list (bytes * iface).

Definition TreeNew : Tree := [].

Fixpoint Tree_Get (t : Tree) (k : bytes) : iface * bool :=
  match t with
  | [] => (INil, false)
  | (k', v') :: t' =>
      match cmp k k' with
      | Eq => (v', true)
      | Lt => (INil, false)
      | Gt => Tree_Get t' k
      end
  end.

Fixpoint Tree_Set (t : Tree) (k : bytes) (v : iface) : Tree :=
  match t with
  | [] => [(k, v)]
  | (k', v') :: t' =>
      match cmp k k' with
      | Eq => (k', v) :: t'
      | Lt => (k, v) :: (k', v') :: t'
      | Gt => (k', v') :: Tree_Set t' k v
      end
  end.

Fixpoint Tree_Delete (t : Tree) (k : bytes) : Tree :=
  match t with
  | [] => []
  | (k', v') :: t' =>
      match cmp k k' with
      | Eq => t'
      | Lt => t
      | Gt => (k', v') :: Tree_Delete t' k
      end
  end.

(** The cursor: the index of the entry [Next] returns, and the sticky error
    it has reported. *)
Record Enumerator : Type := mkEnumerator {
  e_i : nat;
  e_err : error
}.

(** Number of entries whose key is below [k]: the index of the first key
    greater than or equal to [k]. *)
Fixpoint Tree_rank (t : Tree) (k : bytes) : nat :=
  match t with
  | [] => 0%nat
  | (k', _) :: t' =>
      match cmp k k' with
      | Gt => S (Tree_rank t' k)
      | _ => 0%nat
      end
  end.

(** [t.Seek(k)]: the cursor and whether it sits on a key equal to [k]. *)
Definition Tree_Seek (t : Tree) (k : bytes) : Enumerator * bool :=
  (mkEnumerator (Tree_rank t k) None, snd (Tree_Get t k)).

(** [t.SeekFirst()]: no cursor and [io.EOF] on an empty tree. *)
Definition Tree_SeekFirst (t : Tree) : option Enumerator * error :=
  match t with
  | [] => (None, Some EOF)
  | _ :: _ => (Some (mkEnumerator 0 None), None)
  end.

(** [e.Next()]: the entry under the cursor, which then advances; at the end
    (nil, nil, io.EOF), and the cursor keeps that error. *)
Definition Enumerator_Next (t : Tree) (e : Enumerator)
  : (iface * iface * error) * Enumerator :=
  match e_err e with
  | Some x => ((INil, INil, Some x), e)
  | None =>
      match nth_error t (e_i e) with
      | Some (k, v) => ((IBytes k, v, None), mkEnumerator (S (e_i e)) None)
      | None => ((INil, INil, Some EOF), mkEnumerator (e_i e) (Some EOF))
      end
  end.

(** Keys strictly ascending: each key is below all the keys after it. *)
Definition key_below (k : bytes) (e : bytes * iface) : bool :=
  match cmp k (fst e) with Lt => true | _ => false end.

Fixpoint Tree_sorted (t : Tree) : bool :=
  match t with
  | [] => true
  | (k, _) :: t' => forallb (key_below k) t' && Tree_sorted t'
  end.

(** Every value the package stores is a [[]byte] inside an interface. *)
Definition Tree_typed (t : Tree) : bool :=
  forallb (fun e => negb (iface_is_nil (snd e))) t.

(** The state of a tree this package owns. *)
Definition Tree_ok (t : Tree) : bool := Tree_sorted t && Tree_typed t.

(** ** Store *)

(** [Store]: the tree; the mutex [m] only serialises the calls. *)
Record Store : Type := mkStore {
  s_t : Tree
}.

(** [StoreConstructor]: a store over an empty tree. *)
Definition StoreConstructor : Store * error := (mkStore TreeNew, None).

(** [Close] releases nothing; [Reader] and [Writer] are the store itself. *)
Definition Store_Close (s : Store) : error := None.
Definition Store_Reader (s : Store) : Store * error := (s, None).
Definition Store_Writer (s : Store) : Store * error := (s, None).

Definition Store_Get (s : Store) (k : bytes) : bytes * error :=
  let (v, ok) := Tree_Get (s_t s) k in
  if negb ok || iface_is_nil v then (None, None)
  else match assert_bytes v with
       | Some x => (x, None)
       | None => (None, None) (* not reached: [v] is not nil here *)
       end.

Definition Store_Set (s : Store) (k v : bytes) : Store * error :=
  (mkStore (Tree_Set (s_t s) k (IBytes v)), None).

Definition Store_Delete (s : Store) (k : bytes) : Store * error :=
  (mkStore (Tree_Delete (s_t s) k), None).

(** ** Iterator *)

(** [Iterator]: the cursor [e] (a pointer, nil after [Close] or a failed
    [SeekFirst]) and the cached pair.  The store [s] it points to is passed
    to the calls that lock it. *)
Record Iterator : Type := mkIterator {
  e : option Enumerator;
  currK : iface;
  currV : iface;
  currErr : error
}.

(** [w.e.Next()] on a nil cursor dereferences nil. *)
Definition Iterator_Next (s : Store) (w : Iterator) : outcome Iterator :=
  match currErr w with
  | Some _ => Ok (mkIterator (e w) INil INil (Some iteratorDoneErr))
  | None =>
      match e w with
      | None => Panic
      | Some en =>
          let '((k, v, er), en') := Enumerator_Next (s_t s) en in
          Ok (mkIterator (Some en') k v er)
      end
  end.

Definition Iterator_SeekFirst (s : Store) (w : Iterator) : outcome Iterator :=
  let (en, er) := Tree_SeekFirst (s_t s) in
  let w1 := mkIterator en INil INil None in
  let w2 := match er with
            | Some _ => mkIterator en INil INil (Some iteratorDoneErr)
            | None => w1
            end in
  Iterator_Next s w2.

Definition Iterator_Seek (s : Store) (w : Iterator) (k : bytes) : outcome Iterator :=
  let (en, _) := Tree_Seek (s_t s) k in
  Iterator_Next s (mkIterator (Some en) INil INil None).

Definition Iterator_Current (w : Iterator) : bytes * bytes * bool :=
  if is_iteratorDoneErr (currErr w) || iface_is_nil (currK w) || iface_is_nil (currV w)
  then (None, None, false)
  else match assert_bytes (currK w), assert_bytes (currV w) with
       | Some k, Some v => (k, v, true)
       | _, _ => (None, None, false) (* not reached: neither is nil here *)
       end.

Definition Iterator_Key (w : Iterator) : bytes :=
  let '(k, _, ok) := Iterator_Current w in
  if negb ok then None else k.

Definition Iterator_Value (w : Iterator) : bytes :=
  let '(_, v, ok) := Iterator_Current w in
  if negb ok then None else v.

Definition Iterator_Valid (w : Iterator) : bool :=
  let '(_, _, ok) := Iterator_Current w in ok.

Definition Iterator_Close (w : Iterator) : Iterator * error :=
  (mkIterator None (currK w) (currV w) (currErr w), None).

(** [Store.Iterator]: a fresh iterator, then [Seek]. *)
Definition Store_Iterator (s : Store) (k : bytes) : outcome Iterator :=
  Iterator_Seek s (mkIterator None INil INil None) k.

(** [Next] called once per store state of [ss], the store being whatever
    the other callers have made of it by then. *)
Fixpoint Iterator_Nexts (ss : list Store) (w : Iterator) : outcome Iterator :=
  match ss with
  | [] => Ok w
  | s :: ss' =>
      match Iterator_Next s w with
      | Ok w' => Iterator_Nexts ss' w'
      | Panic => Panic
      end
  end.

(** ** Merge operators *)

(** [store.AssociativeMerge]: an interface with the single method
    [Merge(key, existing []byte) ([]byte, error)]. *)
Record AssociativeMerge : Type := mkAssociativeMerge {
  Merge : bytes -> bytes -> bytes * error
}.

Definition AssociativeMergeChain : Type := list AssociativeMerge.

(** Modelled from the spec: [AssociativeMergeChain.Merge] of package
    [store] (index/store), which [Batch.Execute] calls and whose source is
    not part of this package.  The spec has it fold the chain's operators
    over (key, currentValue) in registration order to a new value or
    tombstone, a failing operator ending the fold with its error. *)
Fixpoint AssociativeMergeChain_Merge (a : AssociativeMergeChain)
    (key curr : bytes) : bytes * error :=
  match a with
  | [] => (curr, None)
  | m :: a' =>
      match Merge m key curr with
      | (_, Some er) => (None, Some er)
      | (c, None) => AssociativeMergeChain_Merge a' key c
      end
  end.

(** ** Batch *)

(** [Batch]: the two parallel buffers (a nil slice is the empty list: the
    code only appends to them, ranges over them and indexes them) and the
    merge map, which is a nil map ([None]) after [Close]. *)
Record Batch : Type := mkBatch {
  ks : list bytes;
  vs : list bytes;
  ms : option (gmap string AssociativeMergeChain)
}.

Definition Store_NewBatch (s : Store) : Batch := mkBatch [] [] (Some ∅).

Definition Batch_Set (w : Batch) (k v : bytes) : Batch :=
  mkBatch (ks w ++ [k]) (vs w ++ [v]) (ms w).

Definition Batch_Delete (w : Batch) (k : bytes) : Batch :=
  mkBatch (ks w ++ [k]) (vs w ++ [None]) (ms w).

(** Reading a nil map gives the zero value; assigning into it panics. *)
Definition Batch_Merge (w : Batch) (k : bytes) (oper : AssociativeMerge)
  : outcome Batch :=
  let key := string_of_bytes k in
  match ms w with
  | None => Panic
  | Some m =>
      Ok (mkBatch (ks w) (vs w)
            (Some (<[key := default [] (m !! key) ++ [oper]]> m)))
  end.

(** The entries a [range] over the merge map yields. *)
Definition ms_entries (w : Batch) : list (string * AssociativeMergeChain) :=
  match ms w with
  | None => []
  | Some m => map_to_list m
  end.

(** Go leaves the order of a [range] over a map open: any arrangement of
    the entries can be the one a run takes. *)
Definition range_order (w : Batch)
    (order : list (string * AssociativeMergeChain)) : Prop :=
  Permutation order (ms_entries w).

(** The value the merge loop reads for [k]. *)
Definition current_value (t : Tree) (k : bytes) : bytes :=
  let (v, ok) := Tree_Get t k in
  if ok && negb (iface_is_nil v)
  then match assert_bytes v with Some x => x | None => None end
  else None.

(** [t.Set(k, b)] for a value, [t.Delete(k)] for nil. *)
Definition apply_value (t : Tree) (k b : bytes) : Tree :=
  match b with
  | Some _ => Tree_Set t k (IBytes b)
  | None => Tree_Delete t k
  end.

(** What [Tree_Get] finds once [apply_value] has written [x]. *)
Definition stored (x : bytes) : iface * bool :=
  match x with
  | Some _ => (IBytes x, true)
  | None => (INil, false)
  end.

(** The first loop of [Execute], over the merge map in the order taken. *)
Fixpoint apply_merges (order : list (string * AssociativeMergeChain))
    (t : Tree) : Tree * error :=
  match order with
  | [] => (t, None)
  | (key, mc) :: rest =>
      let k := bytes_of_string key in
      match AssociativeMergeChain_Merge mc k (current_value t k) with
      | (_, Some er) => (t, Some er)
      | (b, None) => apply_merges rest (apply_value t k b)
      end
  end.

(** The second loop of [Execute]: [ks'] is what is left of [ks] from index
    [i] on; [vs[i]] out of range panics. *)
Fixpoint apply_writes (i : nat) (ks' vs0 : list bytes) (t : Tree)
  : outcome Tree :=
  match ks' with
  | [] => Ok t
  | k :: rest =>
      match nth_error vs0 i with
      | None => Panic
      | Some v => apply_writes (S i) rest vs0 (apply_value t k v)
      end
  end.

(** [Batch.Execute]: the buffers are swapped out, then the store is
    changed under its lock. *)
Definition Batch_Execute (order : list (string * AssociativeMergeChain))
    (w : Batch) (s : Store) : outcome (Batch * Store * error) :=
  let w' := mkBatch [] [] (Some ∅) in
  match apply_merges order (s_t s) with
  | (t1, Some er) => Ok (w', mkStore t1, Some er)
  | (t1, None) =>
      match apply_writes 0 (ks w) (vs w) t1 with
      | Ok t2 => Ok (w', mkStore t2, None)
      | Panic => Panic
      end
  end.

Definition Batch_Close (w : Batch) : Batch * error :=
  (mkBatch [] [] None, None).

(** The buffers are parallel. *)
Definition Batch_ok (w : Batch) : Prop := length (ks w) = length (vs w).

(** One step of the second loop, on the pair ([ks[i]], [vs[i]]). *)
Definition write_entry (t : Tree) (kv : bytes * bytes) : Tree :=
  apply_value t (fst kv) (snd kv).

(** The value of the last buffered entry for the key [k], if there is one. *)
Fixpoint last_write (k : bytes) (kvs : list (bytes * bytes)) : option bytes :=
  match kvs with
  | [] => None
  | (k', v) :: rest =>
      match last_write k rest with
      | Some v' => Some v'
      | None => match cmp k k' with Eq => Some v | _ => None end
      end
  end.

(** A merge operator that appends [x] to the existing value. *)
Definition append_op (x : list byte) : AssociativeMerge :=
  mkAssociativeMerge (fun _ existing => (Some (content existing ++ x), None)).

(** A merge operator that fails with [er]. *)
Definition failing_op (er : err) : AssociativeMerge :=
  mkAssociativeMerge (fun _ _ => (None, Some er)).

(** ** Sequences of point writes *)

Inductive store_op : Type :=
| OpSet (k v : bytes)
| OpDelete (k : bytes).

Definition op_key (o : store_op) : bytes :=
  match o with OpSet k _ => k | OpDelete k => k end.

Definition run_op (s : Store) (o : store_op) : Store :=
  match o with
  | OpSet k v => fst (Store_Set s k v)
  | OpDelete k => fst (Store_Delete s k)
  end.

Definition run_ops (s : Store) (os : list store_op) : Store :=
  fold_left run_op os s.

(** The last operation of [os] on the key [k], if there is one. *)
Fixpoint last_op (k : bytes) (os : list store_op) : option store_op :=
  match os with
  | [] => None
  | o :: os' =>
      match last_op k os' with
      | Some o' => Some o'
      | None => match cmp k (op_key o) with Eq => Some o | _ => None end
      end
  end.

(** ** Observers and reachable states *)

(** The loop a reader of the store runs on an iterator: while [Valid], take
    [Key] and [Value], then [Next]; [fuel] bounds the number of rounds. *)
Fixpoint Iterator_collect (fuel : nat) (s : Store) (w : Iterator)
  : outcome (list (bytes * bytes)) :=
  match fuel with
  | O => Ok []
  | S n =>
      if Iterator_Valid w then
        match Iterator_Next s w with
        | Ok w' =>
            match Iterator_collect n s w' with
            | Ok l => Ok ((Iterator_Key w, Iterator_Value w) :: l)
            | Panic => Panic
            end
        | Panic => Panic
        end
      else Ok []
  end.

(** An entry of the tree as [Key] and [Value] hand it out. *)
Definition entry_pair (en : bytes * iface) : bytes * bytes :=
  (fst en, match snd en with IBytes x => x | INil => None end).

(** The entries [Seek(k)] does not skip: those whose key is not below [k]. *)
Definition at_or_above (k : bytes) (en : bytes * iface) : bool :=
  match cmp k (fst en) with Gt => false | _ => true end.

(** A list of keys in strictly ascending order. *)
Fixpoint keys_ascending (l : list bytes) : bool :=
  match l with
  | [] => true
  | k :: l' =>
      forallb (fun k' => match cmp k k' with Lt => true | _ => false end) l'
      && keys_ascending l'
  end.

(** The iterator as [Seek], [SeekFirst] or [Next] leave it when the cursor
    reads index [i] of the tree [t]. *)
Definition landed (t : Tree) (i : nat) : Iterator :=
  match nth_error t i with
  | Some (k, v) => mkIterator (Some (mkEnumerator (S i) None)) (IBytes k) v None
  | None => mkIterator (Some (mkEnumerator i (Some EOF))) INil INil (Some EOF)
  end.

(** The point write that does what the second loop of [Execute] does with a
    buffered entry. *)
Definition entry_op (kv : bytes * bytes) : store_op :=
  match snd kv with
  | Some _ => OpSet (fst kv) (snd kv)
  | None => OpDelete (fst kv)
  end.

(** [Merge(k, oper)] called for each operator of [ops] in turn. *)
Fixpoint Batch_Merges (w : Batch) (k : bytes) (ops : list AssociativeMerge)
  : outcome Batch :=
  match ops with
  | [] => Ok w
  | oper :: rest =>
      match Batch_Merge w k oper with
      | Ok w' => Batch_Merges w' k rest
      | Panic => Panic
      end
  end.

(** The stores a program can get to: from the constructor, by [Set],
    [Delete] and the [Execute] of any batch, in any range order. *)
Inductive reachable : Store -> Prop :=
| reach_new : reachable (fst StoreConstructor)
| reach_Set s k v : reachable s -> reachable (fst (Store_Set s k v))
| reach_Delete s k : reachable s -> reachable (fst (Store_Delete s k))
| reach_Execute s order w w' s' er :
    reachable s -> Batch_Execute order w s = Ok (w', s', er) -> reachable s'.

(** ** Order lemmas *)

Lemma to_N_inj (x y : byte) : Byte.to_N x = Byte.to_N y -> x = y.
Proof.
  intros H. assert (E : Some x = Some y)
    by (rewrite <- (Byte.of_to_N x), <- (Byte.of_to_N y); now rewrite H).
  now inversion E.
Qed.

Lemma lex_compare_refl a : lex_compare a a = Eq.
Proof. induction a as [|x a IH]; simpl; [easy|]. now rewrite N.compare_refl. Qed.

Lemma lex_compare_eq a c : lex_compare a c = Eq -> a = c.
Proof.
  revert c; induction a as [|x a IH]; intros [|y c]; simpl; try easy.
  destruct (N.compare (Byte.to_N x) (Byte.to_N y)) eqn:E; try easy.
  intros H. apply N.compare_eq in E. apply to_N_inj in E.
  rewrite E, (IH c H). reflexivity.
Qed.

Lemma lex_compare_antisym a c : lex_compare c a = CompOpp (lex_compare a c).
Proof.
  revert c; induction a as [|x a IH]; intros [|y c]; simpl; try easy.
  rewrite (N.compare_antisym (Byte.to_N x) (Byte.to_N y)).
  destruct (N.compare (Byte.to_N x) (Byte.to_N y)); simpl; auto.
Qed.

Lemma lex_compare_trans a c d :
  lex_compare a c = Lt -> lex_compare c d = Lt -> lex_compare a d = Lt.
Proof.
  revert c d; induction a as [|x a IH]; intros [|y c] [|z d]; simpl; try easy.
  destruct (N.compare (Byte.to_N x) (Byte.to_N y)) eqn:E1; try easy;
  destruct (N.compare (Byte.to_N y) (Byte.to_N z)) eqn:E2; try easy; intros H1 H2.
  - apply N.compare_eq in E1, E2. rewrite E1, E2, N.compare_refl. eauto.
  - apply N.compare_eq in E1. rewrite E1, E2. reflexivity.
  - apply N.compare_eq in E2. rewrite <- E2, E1. reflexivity.
  - rewrite N.compare_lt_iff in E1, E2.
    assert (E : N.compare (Byte.to_N x) (Byte.to_N z) = Lt)
      by (rewrite N.compare_lt_iff; lia).
    now rewrite E.
Qed.

Lemma cmp_lex a c : cmp a c = lex_compare (content a) (content c).
Proof.
  unfold cmp, itemCompare, bytes_Compare.
  destruct (lex_compare (content a) (content c)); reflexivity.
Qed.

Lemma cmp_refl a : cmp a a = Eq.
Proof. rewrite cmp_lex. apply lex_compare_refl. Qed.

Lemma cmp_eq_iff a c : cmp a c = Eq <-> content a = content c.
Proof.
  rewrite cmp_lex. split; [apply lex_compare_eq|].
  intros ->. apply lex_compare_refl.
Qed.

Lemma cmp_antisym a c : cmp c a = CompOpp (cmp a c).
Proof. rewrite !cmp_lex. apply lex_compare_antisym. Qed.

Lemma cmp_lt_trans a c d : cmp a c = Lt -> cmp c d = Lt -> cmp a d = Lt.
Proof. rewrite !cmp_lex. apply lex_compare_trans. Qed.

Lemma cmp_content_l a a' c : content a = content a' -> cmp a c = cmp a' c.
Proof. rewrite !cmp_lex. now intros ->. Qed.

Lemma cmp_content_r a c c' : content c = content c' -> cmp a c = cmp a c'.
Proof. rewrite !cmp_lex. now intros ->. Qed.

Lemma cmp_gt_lt a c : cmp a c = Gt <-> cmp c a = Lt.
Proof. rewrite (cmp_antisym a c). destruct (cmp a c); simpl; split; congruence. Qed.

(** ** The ordered map: lookups after updates *)

Lemma Tree_Get_content t k k' :
  content k = content k' -> Tree_Get t k = Tree_Get t k'.
Proof.
  intros E. induction t as [|[k0 v0] t IH]; simpl; [reflexivity|].
  rewrite (cmp_content_l k k' k0 E), IH. reflexivity.
Qed.

Lemma key_below_trans a c t :
  cmp a c = Lt -> forallb (key_below c) t = true -> forallb (key_below a) t = true.
Proof.
  intros Hac. rewrite !forallb_forall. intros H x Hx.
  specialize (H x Hx). unfold key_below in *.
  destruct (cmp c (fst x)) eqn:E; try discriminate.
  now rewrite (cmp_lt_trans a c (fst x) Hac E).
Qed.

(** A key that is not above the first key of a sorted tail is not in it. *)
Lemma Tree_Get_below t k a :
  cmp k a <> Gt -> forallb (key_below a) t = true -> Tree_Get t k = (INil, false).
Proof.
  intros Hka Ht. destruct t as [|[k0 v0] t]; simpl; [reflexivity|].
  simpl in Ht. apply andb_true_iff in Ht as [Hk0 _]. unfold key_below in Hk0. simpl in Hk0.
  destruct (cmp a k0) eqn:Ea; try discriminate.
  destruct (cmp k a) eqn:Ek; try congruence.
  - apply cmp_eq_iff in Ek. now rewrite (cmp_content_l k a k0 Ek), Ea.
  - now rewrite (cmp_lt_trans k a k0 Ek Ea).
Qed.

Lemma Tree_Get_Set_eq t k v : Tree_Get (Tree_Set t k v) k = (v, true).
Proof.
  induction t as [|[k0 v0] t IH]; simpl.
  - now rewrite cmp_refl.
  - destruct (cmp k k0) eqn:E; simpl.
    + now rewrite E.
    + now rewrite cmp_refl.
    + now rewrite E.
Qed.

Lemma Tree_Get_Set_ne t k v k' :
  cmp k k' <> Eq -> Tree_Get (Tree_Set t k v) k' = Tree_Get t k'.
Proof.
  intros Hne.
  assert (Hne' : cmp k' k <> Eq)
    by (rewrite (cmp_antisym k k'); destruct (cmp k k'); simpl; congruence).
  induction t as [|[k0 v0] t IH]; simpl.
  - destruct (cmp k' k) eqn:E; congruence.
  - destruct (cmp k k0) eqn:E; simpl.
    + apply cmp_eq_iff in E. rewrite <- (cmp_content_r k' k k0 E).
      destruct (cmp k' k); congruence.
    + destruct (cmp k' k) eqn:E'; try congruence.
      now rewrite (cmp_lt_trans k' k k0 E' E).
    + destruct (cmp k' k0); auto.
Qed.

Lemma Tree_Get_Delete_eq t k :
  Tree_sorted t = true -> Tree_Get (Tree_Delete t k) k = (INil, false).
Proof.
  induction t as [|[k0 v0] t IH]; simpl; [reflexivity|].
  intros Hs. apply andb_true_iff in Hs as [Hb Hs].
  destruct (cmp k k0) eqn:E; simpl.
  - apply (Tree_Get_below t k k0); congruence.
  - now rewrite E.
  - rewrite E. auto.
Qed.

Lemma Tree_Get_Delete_ne t k k' :
  Tree_sorted t = true -> cmp k k' <> Eq ->
  Tree_Get (Tree_Delete t k) k' = Tree_Get t k'.
Proof.
  intros Hs Hne.
  induction t as [|[k0 v0] t IH]; simpl; [reflexivity|].
  simpl in Hs. apply andb_true_iff in Hs as [Hb Hs].
  destruct (cmp k k0) eqn:E; simpl.
  - destruct (cmp k' k0) eqn:E'.
    + exfalso. apply Hne. apply cmp_eq_iff. apply cmp_eq_iff in E, E'. congruence.
    + apply (Tree_Get_below t k' k0); congruence.
    + reflexivity.
  - reflexivity.
  - destruct (cmp k' k0); auto.
Qed.

(** ** The ordered map: the invariant *)

Lemma key_below_Set a t k v :
  cmp a k = Lt -> forallb (key_below a) t = true ->
  forallb (key_below a) (Tree_Set t k v) = true.
Proof.
  intros Hak. induction t as [|[k0 v0] t IH]; simpl.
  - unfold key_below. simpl. now rewrite Hak.
  - intros H. apply andb_true_iff in H as [H0 Ht].
    destruct (cmp k k0); simpl.
    + now rewrite Ht, andb_true_r.
    + rewrite H0, Ht. unfold key_below. simpl. now rewrite Hak.
    + now rewrite H0, IH.
Qed.

Lemma key_below_Delete a t k :
  forallb (key_below a) t = true -> forallb (key_below a) (Tree_Delete t k) = true.
Proof.
  induction t as [|[k0 v0] t IH]; simpl; [easy|].
  intros H. apply andb_true_iff in H as [H0 Ht].
  destruct (cmp k k0); simpl.
  - exact Ht.
  - now rewrite H0, Ht.
  - now rewrite H0, IH.
Qed.

Lemma Tree_sorted_Set t k v :
  Tree_sorted t = true -> Tree_sorted (Tree_Set t k v) = true.
Proof.
  induction t as [|[k0 v0] t IH]; simpl; [easy|].
  intros H. apply andb_true_iff in H as [Hb Hs].
  destruct (cmp k k0) eqn:E; simpl.
  - now rewrite Hb, Hs.
  - rewrite Hb, Hs. unfold key_below at 1. simpl. rewrite E. simpl.
    now rewrite (key_below_trans k k0 t E Hb).
  - rewrite (IH Hs), andb_true_r. apply key_below_Set; [|exact Hb].
    now apply cmp_gt_lt.
Qed.

Lemma Tree_sorted_Delete t k :
  Tree_sorted t = true -> Tree_sorted (Tree_Delete t k) = true.
Proof.
  induction t as [|[k0 v0] t IH]; simpl; [easy|].
  intros H. apply andb_true_iff in H as [Hb Hs].
  destruct (cmp k k0) eqn:E; simpl.
  - exact Hs.
  - now rewrite Hb, Hs.
  - now rewrite (IH Hs), (key_below_Delete k0 t k Hb).
Qed.

Lemma Tree_typed_Set t k x :
  Tree_typed t = true -> Tree_typed (Tree_Set t k (IBytes x)) = true.
Proof.
  unfold Tree_typed. induction t as [|[k0 v0] t IH]; simpl; [easy|].
  intros H. apply andb_true_iff in H as [H0 Ht].
  destruct (cmp k k0); simpl; rewrite ?H0, ?Ht, ?IH; auto.
Qed.

Lemma Tree_typed_Delete t k :
  Tree_typed t = true -> Tree_typed (Tree_Delete t k) = true.
Proof.
  unfold Tree_typed. induction t as [|[k0 v0] t IH]; simpl; [easy|].
  intros H. apply andb_true_iff in H as [H0 Ht].
  destruct (cmp k k0); simpl; rewrite ?H0, ?Ht, ?IH; auto.
Qed.

Lemma Tree_ok_Set t k x :
  Tree_ok t = true -> Tree_ok (Tree_Set t k (IBytes x)) = true.
Proof.
  unfold Tree_ok. intros H. apply andb_true_iff in H as [Hs Ht].
  now rewrite Tree_sorted_Set, Tree_typed_Set.
Qed.

Lemma Tree_ok_Delete t k :
  Tree_ok t = true -> Tree_ok (Tree_Delete t k) = true.
Proof.
  unfold Tree_ok. intros H. apply andb_true_iff in H as [Hs Ht].
  now rewrite Tree_sorted_Delete, Tree_typed_Delete.
Qed.

Lemma Tree_ok_sorted t : Tree_ok t = true -> Tree_sorted t = true.
Proof. unfold Tree_ok. intros H. now apply andb_true_iff in H as [Hs _]. Qed.

Lemma Tree_ok_typed t : Tree_ok t = true -> Tree_typed t = true.
Proof. unfold Tree_ok. intros H. now apply andb_true_iff in H as [_ Ht]. Qed.

(** ** What a tree holds for a key after a write *)

Lemma current_value_Get t t' k k' :
  Tree_Get t k = Tree_Get t' k' -> current_value t k = current_value t' k'.
Proof. unfold current_value. now intros ->. Qed.

Lemma Store_Get_current s k : Store_Get s k = (current_value (s_t s) k, None).
Proof.
  unfold Store_Get, current_value.
  destruct (Tree_Get (s_t s) k) as [[|x] [|]]; reflexivity.
Qed.

Lemma Tree_Get_Set t k v k' :
  Tree_Get (Tree_Set t k v) k' =
    match cmp k k' with Eq => (v, true) | _ => Tree_Get t k' end.
Proof.
  destruct (cmp k k') eqn:E.
  - apply cmp_eq_iff in E.
    rewrite <- (Tree_Get_content (Tree_Set t k v) k k' E). apply Tree_Get_Set_eq.
  - apply Tree_Get_Set_ne. congruence.
  - apply Tree_Get_Set_ne. congruence.
Qed.

Lemma Tree_Get_Delete t k k' :
  Tree_sorted t = true ->
  Tree_Get (Tree_Delete t k) k' =
    match cmp k k' with Eq => (INil, false) | _ => Tree_Get t k' end.
Proof.
  intros Hs. destruct (cmp k k') eqn:E.
  - apply cmp_eq_iff in E.
    rewrite <- (Tree_Get_content (Tree_Delete t k) k k' E).
    now apply Tree_Get_Delete_eq.
  - apply Tree_Get_Delete_ne; congruence.
  - apply Tree_Get_Delete_ne; congruence.
Qed.

Lemma Tree_Get_apply_value t k x k' :
  Tree_sorted t = true ->
  Tree_Get (apply_value t k x) k' =
    match cmp k k' with Eq => stored x | _ => Tree_Get t k' end.
Proof.
  intros Hs. destruct x as [l|]; simpl.
  - apply Tree_Get_Set.
  - now apply Tree_Get_Delete.
Qed.

Lemma current_value_stored t k x :
  Tree_Get t k = stored x -> current_value t k = x.
Proof. unfold current_value. intros ->. now destruct x. Qed.

Lemma Tree_sorted_apply_value t k x :
  Tree_sorted t = true -> Tree_sorted (apply_value t k x) = true.
Proof.
  destruct x; simpl; [apply Tree_sorted_Set | apply Tree_sorted_Delete].
Qed.

Lemma Tree_ok_apply_value t k x :
  Tree_ok t = true -> Tree_ok (apply_value t k x) = true.
Proof.
  destruct x; simpl; [apply Tree_ok_Set | apply Tree_ok_Delete].
Qed.

(** Deleting a key the tree does not hold changes nothing. *)
Lemma Tree_Delete_absent t k :
  snd (Tree_Get t k) = false -> Tree_Delete t k = t.
Proof.
  induction t as [|[k0 v0] t IH]; simpl; [reflexivity|].
  destruct (cmp k k0); simpl; try easy.
  intros H. now rewrite IH.
Qed.

(** ** Store: point reads and writes *)

Lemma Store_Get_Set s k v k' :
  Store_Get (fst (Store_Set s k v)) k' =
    match cmp k k' with Eq => (v, None) | _ => Store_Get s k' end.
Proof.
  rewrite !Store_Get_current. simpl.
  unfold current_value at 1. rewrite Tree_Get_Set.
  destruct (cmp k k'); reflexivity.
Qed.

Lemma Store_Get_Delete s k k' :
  Tree_sorted (s_t s) = true ->
  Store_Get (fst (Store_Delete s k)) k' =
    match cmp k k' with Eq => (None, None) | _ => Store_Get s k' end.
Proof.
  intros Hs. rewrite !Store_Get_current. simpl.
  unfold current_value at 1. rewrite (Tree_Get_Delete _ _ _ Hs).
  destruct (cmp k k'); reflexivity.
Qed.

Lemma run_op_sorted s o :
  Tree_sorted (s_t s) = true -> Tree_sorted (s_t (run_op s o)) = true.
Proof.
  destruct o; simpl; [apply Tree_sorted_Set | apply Tree_sorted_Delete].
Qed.

Lemma run_op_ok s o :
  Tree_ok (s_t s) = true -> Tree_ok (s_t (run_op s o)) = true.
Proof.
  destruct o; simpl; [apply Tree_ok_Set | apply Tree_ok_Delete].
Qed.

Lemma run_ops_ok os : forall s,
  Tree_ok (s_t s) = true -> Tree_ok (s_t (run_ops s os)) = true.
Proof.
  induction os as [|o os IH]; intros s Hs; simpl; [exact Hs|].
  apply IH. now apply run_op_ok.
Qed.

Lemma Store_Get_run_op s o k :
  Tree_sorted (s_t s) = true ->
  Store_Get (run_op s o) k =
    match cmp k (op_key o) with
    | Eq => match o with OpSet _ v => (v, None) | OpDelete _ => (None, None) end
    | _ => Store_Get s k
    end.
Proof.
  intros Hs. rewrite (cmp_antisym (op_key o) k).
  destruct o as [k0 v|k0]; simpl op_key; unfold run_op.
  - rewrite Store_Get_Set. now destruct (cmp k0 k).
  - rewrite (Store_Get_Delete _ _ _ Hs). now destruct (cmp k0 k).
Qed.

(** C4: after any sequence of Store.Set and Store.Delete calls, Get(k)
    returns the value of the last Set on k when no Delete on k follows it,
    absence when the last operation on k is a Delete, and what the store held
    before when the sequence never writes k: absence on a new store. *)
Theorem C4_get_returns_last_write (s : Store) (os : list store_op) (k : bytes) :
  Tree_sorted (s_t s) = true ->
  Store_Get (run_ops s os) k =
    match last_op k os with
    | Some (OpSet _ v) => (v, None)
    | Some (OpDelete _) => (None, None)
    | None => Store_Get s k
    end
  /\ (last_op k os = None ->
      Store_Get (run_ops (fst StoreConstructor) os) k = (None, None)).
Proof.
  intros Hs.
  assert (G : forall s0, Tree_sorted (s_t s0) = true ->
    Store_Get (run_ops s0 os) k =
      match last_op k os with
      | Some (OpSet _ v) => (v, None)
      | Some (OpDelete _) => (None, None)
      | None => Store_Get s0 k
      end).
  { clear s Hs. induction os as [|o os IH]; intros s0 Hs0; simpl; [reflexivity|].
    rewrite (IH (run_op s0 o) (run_op_sorted s0 o Hs0)).
    destruct (last_op k os) as [o'|]; [reflexivity|].
    rewrite (Store_Get_run_op s0 o k Hs0).
    destruct (cmp k (op_key o)); reflexivity. }
  split; [now apply G|].
  intros Hn. rewrite (G (fst StoreConstructor) eq_refl), Hn. reflexivity.
Qed.

Lemma C4_get_returns_last_write_witness :
  Tree_sorted (s_t (fst StoreConstructor)) = true /\
  Store_Get
    (run_ops (fst StoreConstructor)
       [OpSet (Some ["a"%byte]) (Some ["1"%byte]); OpDelete (Some ["a"%byte]);
        OpSet (Some ["b"%byte]) (Some ["2"%byte]); OpSet (Some ["b"%byte]) (Some [])])
    (Some ["b"%byte]) = (Some [], None).
Proof.
  split; [reflexivity|].
  exact (proj1 (C4_get_returns_last_write (fst StoreConstructor)
    [OpSet (Some ["a"%byte]) (Some ["1"%byte]); OpDelete (Some ["a"%byte]);
     OpSet (Some ["b"%byte]) (Some ["2"%byte]); OpSet (Some ["b"%byte]) (Some [])]
    (Some ["b"%byte]) eq_refl)).
Defined.

(** C7: Get on a key the tree does not hold, or holds with a nil value,
    returns (nil, nil); Get never returns an error; Delete of a key the tree
    does not hold leaves the tree as it was and returns nil. *)
Theorem C7_absence_is_not_an_error (s : Store) (k : bytes) :
  snd (Store_Get s k) = None
  /\ (snd (Tree_Get (s_t s) k) = false -> Store_Get s k = (None, None))
  /\ (fst (Tree_Get (s_t s) k) = INil \/ fst (Tree_Get (s_t s) k) = IBytes None ->
      Store_Get s k = (None, None))
  /\ (snd (Tree_Get (s_t s) k) = false -> Store_Delete s k = (s, None)).
Proof.
  split; [|split; [|split]].
  - now rewrite Store_Get_current.
  - unfold Store_Get. destruct (Tree_Get (s_t s) k) as [v ok]. simpl. now intros ->.
  - unfold Store_Get. destruct (Tree_Get (s_t s) k) as [v [|]]; simpl;
      intros [-> | ->]; reflexivity.
  - intros H. unfold Store_Delete. rewrite (Tree_Delete_absent _ _ H). now destruct s.
Qed.

Lemma C7_absence_is_not_an_error_witness :
  let s := fst (Store_Set (fst (Store_Set (fst StoreConstructor)
                  (Some ["a"%byte]) (Some ["1"%byte])))
                  (Some ["t"%byte]) None) in
  Store_Get s (Some ["b"%byte]) = (None, None)
  /\ Store_Get s (Some ["t"%byte]) = (None, None)
  /\ Store_Delete s (Some ["b"%byte]) = (s, None).
Proof.
  intros s.
  pose proof (C7_absence_is_not_an_error s (Some ["b"%byte])) as (_ & Hb & _ & Hd).
  pose proof (C7_absence_is_not_an_error s (Some ["t"%byte])) as (_ & _ & Ht & _).
  split; [|split].
  - apply Hb. reflexivity.
  - apply Ht. right. reflexivity.
  - apply Hd. reflexivity.
Defined.

(** ** Iterator: the terminal state *)

Lemma Iterator_Next_done s w :
  currErr w <> None ->
  Iterator_Next s w = Ok (mkIterator (e w) INil INil (Some iteratorDoneErr)).
Proof. unfold Iterator_Next. destruct (currErr w); congruence. Qed.

(** A [Next] that reports an error leaves no pair behind. *)
Lemma Iterator_Next_clears s w w1 :
  Iterator_Next s w = Ok w1 -> currErr w1 <> None ->
  currK w1 = INil /\ currV w1 = INil.
Proof.
  unfold Iterator_Next, Enumerator_Next.
  destruct (currErr w).
  - intros [= <-] _. now split.
  - destruct (e w) as [en|]; [|discriminate].
    destruct (e_err en).
    + intros [= <-] _. now split.
    + destruct (nth_error (s_t s) (e_i en)) as [[k0 v0]|]; intros [= <-]; simpl; [congruence|].
      now split.
Qed.

Lemma Iterator_Seek_is_Next s w k :
  exists w0, Iterator_Seek s w k = Iterator_Next s w0.
Proof. unfold Iterator_Seek. simpl. eauto. Qed.

Lemma Iterator_SeekFirst_is_Next s w :
  exists w0, Iterator_SeekFirst s w = Iterator_Next s w0.
Proof.
  unfold Iterator_SeekFirst. destruct (Tree_SeekFirst (s_t s)) as [en [er|]]; eauto.
Qed.

Lemma Iterator_Current_none w :
  currK w = INil -> Iterator_Current w = (None, None, false).
Proof.
  unfold Iterator_Current. intros ->. simpl.
  now rewrite orb_true_r.
Qed.

Lemma Iterator_reads_none w :
  Iterator_Current w = (None, None, false) ->
  Iterator_Key w = None /\ Iterator_Value w = None /\ Iterator_Valid w = false.
Proof.
  unfold Iterator_Key, Iterator_Value, Iterator_Valid. intros ->. now repeat split.
Qed.

Lemma Iterator_Nexts_done ss : forall w,
  currErr w <> None -> currK w = INil ->
  exists w', Iterator_Nexts ss w = Ok w' /\ currErr w' <> None /\ currK w' = INil.
Proof.
  induction ss as [|s ss IH]; intros w He Hk; simpl.
  - exists w. now repeat split.
  - rewrite (Iterator_Next_done s w He). apply IH; simpl; congruence.
Qed.

(** C6: once a Next, Seek or SeekFirst has left the iterator with the done
    sentinel or the cursor's end-of-data error, Current, Key, Value and Valid
    report no entry, and they still do after any number of further Next
    calls, whatever the store holds by then; Next never fails there. *)
Theorem C6_terminal_state_is_sticky (s : Store) (w w1 : Iterator) (k : bytes) :
  Iterator_Next s w = Ok w1 \/ Iterator_Seek s w k = Ok w1 \/
    Iterator_SeekFirst s w = Ok w1 ->
  currErr w1 <> None ->
  forall ss : list Store, exists w',
    Iterator_Nexts ss w1 = Ok w' /\ currErr w' <> None /\
    Iterator_Current w' = (None, None, false) /\
    Iterator_Key w' = None /\ Iterator_Value w' = None /\
    Iterator_Valid w' = false.
Proof.
  intros Hfrom Herr ss.
  assert (Hnext : exists w0, Iterator_Next s w0 = Ok w1).
  { destruct Hfrom as [H | [H | H]].
    - eauto.
    - destruct (Iterator_Seek_is_Next s w k) as [w0 E]. exists w0. congruence.
    - destruct (Iterator_SeekFirst_is_Next s w) as [w0 E]. exists w0. congruence. }
  destruct Hnext as [w0 Hw0].
  destruct (Iterator_Next_clears s w0 w1 Hw0 Herr) as [Hk _].
  destruct (Iterator_Nexts_done ss w1 Herr Hk) as (w' & Hrun & He' & Hk').
  exists w'. split; [exact Hrun|]. split; [exact He'|].
  pose proof (Iterator_Current_none w' Hk') as Hc.
  split; [exact Hc|]. now apply Iterator_reads_none.
Qed.

Lemma C6_terminal_state_is_sticky_witness :
  let s := fst (Store_Set (fst StoreConstructor) (Some ["a"%byte]) (Some ["1"%byte])) in
  let w1 := mkIterator (Some (mkEnumerator 1 (Some EOF))) INil INil (Some EOF) in
  exists w',
    Iterator_Nexts [s; s; fst StoreConstructor] w1 = Ok w' /\ currErr w' <> None /\
    Iterator_Current w' = (None, None, false) /\
    Iterator_Key w' = None /\ Iterator_Value w' = None /\
    Iterator_Valid w' = false.
Proof.
  intros s w1.
  apply (C6_terminal_state_is_sticky s
           (mkIterator None INil INil None) w1 (Some ["b"%byte])).
  - right. left. reflexivity.
  - discriminate.
Defined.

(** ** Iterator: order of the traversal *)

Lemma sorted_head_below a va t k :
  Tree_sorted ((a, va) :: t) = true -> In k (map fst t) -> cmp a k = Lt.
Proof.
  simpl. intros H Hin. apply andb_true_iff in H as [Hb _].
  apply in_map_iff in Hin as (x & <- & Hx).
  rewrite forallb_forall in Hb. specialize (Hb x Hx). unfold key_below in Hb.
  now destruct (cmp a (fst x)).
Qed.

Lemma Tree_sorted_tail x t : Tree_sorted (x :: t) = true -> Tree_sorted t = true.
Proof. destruct x. simpl. intros H. now apply andb_true_iff in H as [_ H]. Qed.

(** Two sorted trees with the same keys list them in the same order. *)
Lemma sorted_keys_ext t1 : forall t2,
  Tree_sorted t1 = true -> Tree_sorted t2 = true ->
  (forall k, In k (map fst t1) <-> In k (map fst t2)) ->
  map fst t1 = map fst t2.
Proof.
  induction t1 as [|[a va] t1 IH]; intros [|[c vc] t2] H1 H2 Hk; simpl.
  - reflexivity.
  - exfalso. apply (proj2 (Hk c)). now left.
  - exfalso. apply (proj1 (Hk a)). now left.
  - assert (Hac : a = c).
    { destruct (proj1 (Hk a) (or_introl eq_refl)) as [E | Ha]; [now symmetry|].
      destruct (proj2 (Hk c) (or_introl eq_refl)) as [E | Hc]; [exact E|].
      pose proof (sorted_head_below _ _ _ _ H2 Ha) as L1.
      pose proof (sorted_head_below _ _ _ _ H1 Hc) as L2.
      rewrite (cmp_antisym c a), L1 in L2. discriminate. }
    subst c. f_equal.
    apply IH; [now apply Tree_sorted_tail in H1 | now apply Tree_sorted_tail in H2|].
    intros k. split; intros Hin.
    + destruct (proj1 (Hk k) (or_intror Hin)) as [E | Hin']; [|exact Hin'].
      simpl in E. subst k.
      pose proof (sorted_head_below _ _ _ _ H1 Hin) as L. rewrite cmp_refl in L. discriminate.
    + destruct (proj2 (Hk k) (or_intror Hin)) as [E | Hin']; [|exact Hin'].
      simpl in E. subst k.
      pose proof (sorted_head_below _ _ _ _ H2 Hin) as L. rewrite cmp_refl in L. discriminate.
Qed.

(** A sorted tree holds one key of each content. *)
Lemma sorted_In_eq t : forall a c,
  Tree_sorted t = true -> In a (map fst t) -> In c (map fst t) ->
  cmp a c = Eq -> a = c.
Proof.
  induction t as [|[k0 v0] t IH]; intros a c Hs Ha Hc E; [easy|].
  destruct Ha as [Ha | Ha], Hc as [Hc | Hc]; simpl in Ha, Hc.
  - congruence.
  - subst a. pose proof (sorted_head_below _ _ _ _ Hs Hc). congruence.
  - subst c. pose proof (sorted_head_below _ _ _ _ Hs Ha) as L.
    rewrite (cmp_antisym a k0), E in L. discriminate.
  - apply IH; auto. now apply Tree_sorted_tail in Hs.
Qed.

Lemma Tree_typed_In t k v :
  Tree_typed t = true -> In (k, v) t -> exists x, v = IBytes x.
Proof.
  unfold Tree_typed. rewrite forallb_forall. intros H Hin.
  specialize (H _ Hin). destruct v as [|x]; [discriminate | eauto].
Qed.

(** The entry [Seek] lands on is the first whose key is not below [k]. *)
Lemma Tree_rank_spec t k :
  Tree_sorted t = true ->
  match nth_error t (Tree_rank t k) with
  | Some (kc, _) =>
      cmp k kc <> Gt /\
      forall k', In k' (map fst t) -> cmp k k' <> Gt -> cmp kc k' <> Gt
  | None => forall k', In k' (map fst t) -> cmp k k' = Gt
  end.
Proof.
  induction t as [|[k0 v0] t IH]; intros Hs; simpl; [easy|].
  destruct (cmp k k0) eqn:E; simpl.
  1,2: split; [congruence|]; intros k' [<- | Hin] _;
       [rewrite cmp_refl; discriminate
       | rewrite (sorted_head_below _ _ _ _ Hs Hin); discriminate].
  specialize (IH (Tree_sorted_tail _ _ Hs)).
  destruct (nth_error t (Tree_rank t k)) as [[kc vc]|].
  - destruct IH as [H1 H2]. split; [exact H1|].
    intros k' [<- | Hin] Hk'; [congruence | now apply H2].
  - intros k' [<- | Hin]; [exact E | now apply IH].
Qed.

Lemma Iterator_Seek_lands s w k :
  Tree_typed (s_t s) = true ->
  exists wk, Iterator_Seek s w k = Ok wk /\
    match nth_error (s_t s) (Tree_rank (s_t s) k) with
    | Some (kc, vc) =>
        exists x, vc = IBytes x /\ Iterator_Current wk = (kc, x, true)
    | None => Iterator_Current wk = (None, None, false)
    end.
Proof.
  intros Ht. unfold Iterator_Seek, Iterator_Next, Enumerator_Next. simpl.
  destruct (nth_error (s_t s) (Tree_rank (s_t s) k)) as [[kc vc]|] eqn:E.
  - eexists. split; [reflexivity|].
    destruct (Tree_typed_In _ _ _ Ht (nth_error_In _ _ E)) as [x ->].
    exists x. split; reflexivity.
  - eexists. split; reflexivity.
Qed.

(** C5: on a store whose keys are k1 < k2 < k3, SeekFirst and three Next
    calls visit k1, k2, k3 in that order and then report no entry; and on any
    store Seek(k) leaves the iterator on the stored key equal to k when there
    is one, else on the smallest stored key above k, and exhausted when no
    stored key is at or above k. *)
Theorem C5_iteration_is_ordered (s : Store) (w : Iterator) (k1 k2 k3 : bytes) :
  Tree_ok (s_t s) = true ->
  (forall k, In k (map fst (s_t s)) <-> k = k1 \/ k = k2 \/ k = k3) ->
  cmp k1 k2 = Lt -> cmp k2 k3 = Lt ->
  (exists v1 v2 v3 w1 w2 w3 w4,
      Iterator_SeekFirst s w = Ok w1 /\ Iterator_Current w1 = (k1, v1, true) /\
      Iterator_Next s w1 = Ok w2 /\ Iterator_Current w2 = (k2, v2, true) /\
      Iterator_Next s w2 = Ok w3 /\ Iterator_Current w3 = (k3, v3, true) /\
      Iterator_Next s w3 = Ok w4 /\ Iterator_Valid w4 = false /\
      Store_Get s k1 = (v1, None) /\ Store_Get s k2 = (v2, None) /\
      Store_Get s k3 = (v3, None))
  /\ (forall (s' : Store) (k : bytes), Tree_ok (s_t s') = true ->
      exists wk, Iterator_Seek s' w k = Ok wk /\ Store_Iterator s' k = Ok wk /\
        ((forall k', In k' (map fst (s_t s')) -> cmp k' k = Lt) ->
           Iterator_Valid wk = false) /\
        (forall k', In k' (map fst (s_t s')) -> cmp k' k <> Lt ->
           exists kc vc,
             Iterator_Current wk = (kc, vc, true) /\
             In (kc, IBytes vc) (s_t s') /\
             cmp k kc <> Gt /\ cmp kc k' <> Gt /\
             (cmp k' k = Eq -> kc = k'))).
Proof.
  intros Hok Hkeys H12 H23. split.
  - pose proof (Tree_ok_sorted _ Hok) as Hs. pose proof (Tree_ok_typed _ Hok) as Ht.
    pose proof (cmp_lt_trans _ _ _ H12 H23) as H13.
    assert (Hl : map fst (s_t s) = map fst [(k1, INil); (k2, INil); (k3, INil)]).
    { apply sorted_keys_ext; [exact Hs| |].
      - simpl. unfold key_below. simpl. now rewrite H12, H13, H23.
      - intros k. rewrite Hkeys. simpl. intuition congruence. }
    destruct s as [t]. simpl in *.
    destruct t as [|[a1 u1] [|[a2 u2] [|[a3 u3] [|? ?]]]]; try discriminate.
    simpl in Hl. injection Hl as -> -> ->.
    unfold Tree_typed in Ht. simpl in Ht.
    destruct u1 as [|v1]; [discriminate|].
    destruct u2 as [|v2]; [discriminate|].
    destruct u3 as [|v3]; [discriminate|].
    exists v1, v2, v3. do 4 eexists.
    repeat (split; [reflexivity|]).
    rewrite !Store_Get_current. unfold current_value. simpl.
    rewrite !cmp_refl, (proj2 (cmp_gt_lt k2 k1) H12), (proj2 (cmp_gt_lt k3 k1) H13),
      (proj2 (cmp_gt_lt k3 k2) H23).
    now repeat split.
  - clear. intros s k Hok.
    pose proof (Tree_ok_sorted _ Hok) as Hs. pose proof (Tree_ok_typed _ Hok) as Ht.
    destruct (Iterator_Seek_lands s w k Ht) as (wk & Hseek & Hland).
    exists wk. split; [exact Hseek|]. split; [exact Hseek|].
    pose proof (Tree_rank_spec (s_t s) k Hs) as Hr.
    destruct (nth_error (s_t s) (Tree_rank (s_t s) k)) as [[kc vc]|] eqn:E.
    + destruct Hland as (x & -> & Hcur). destruct Hr as [Hkc Hmin].
      pose proof (nth_error_In _ _ E) as Hin.
      split.
      * intros Hall. exfalso. apply Hkc. apply cmp_gt_lt.
        apply Hall. apply in_map_iff. exists (kc, IBytes x). now split.
      * intros k' Hk' Hge. exists kc, x.
        assert (Hkk' : cmp k k' <> Gt) by (rewrite cmp_gt_lt; exact Hge).
        repeat (split; [assumption || now apply Hmin|]).
        intros Heq. apply (sorted_In_eq (s_t s)); auto.
        { apply in_map_iff. exists (kc, IBytes x). now split. }
        pose proof (Hmin k' Hk' Hkk') as Hle.
        apply cmp_eq_iff in Heq.
        rewrite (cmp_content_l k k' kc (eq_sym Heq)) in Hkc.
        rewrite (cmp_antisym kc k') in Hkc.
        destruct (cmp kc k'); simpl in *; congruence.
    + split.
      * intros _. apply Iterator_reads_none. exact Hland.
      * intros k' Hk' Hge. exfalso. apply Hge. apply cmp_gt_lt. now apply Hr.
Qed.

Lemma C5_iteration_is_ordered_witness :
  let ka := Some ["a"%byte] in
  let kb := Some ["b"%byte] in
  let kc := Some ["c"%byte] in
  let s := run_ops (fst StoreConstructor)
             [OpSet kc (Some ["3"%byte]); OpSet ka (Some ["1"%byte]);
              OpSet kb (Some ["2"%byte])] in
  exists v1 v2 v3 w1 w2 w3 w4,
    Iterator_SeekFirst s (mkIterator None INil INil None) = Ok w1 /\
    Iterator_Current w1 = (ka, v1, true) /\
    Iterator_Next s w1 = Ok w2 /\ Iterator_Current w2 = (kb, v2, true) /\
    Iterator_Next s w2 = Ok w3 /\ Iterator_Current w3 = (kc, v3, true) /\
    Iterator_Next s w3 = Ok w4 /\ Iterator_Valid w4 = false /\
    Store_Get s ka = (v1, None) /\ Store_Get s kb = (v2, None) /\
    Store_Get s kc = (v3, None).
Proof.
  intros ka kb kc s.
  refine (proj1 (C5_iteration_is_ordered s (mkIterator None INil INil None)
                   ka kb kc eq_refl _ eq_refl eq_refl)).
  intros k. change (map fst (s_t s)) with [ka; kb; kc]. simpl.
  split.
  - intros [H | [H | [H | []]]]; auto.
  - intros [H | [H | H]]; auto.
Defined.

(** ** Store.Set with a nil value *)

(** Get does not tell a stored nil from a removed key. *)
Lemma Store_Get_Set_nil s k k' :
  Tree_sorted (s_t s) = true ->
  Store_Get (fst (Store_Set s k None)) k' = Store_Get (fst (Store_Delete s k)) k'.
Proof. intros Hs. now rewrite Store_Get_Set, (Store_Get_Delete _ _ _ Hs). Qed.

(** C3: on a store that holds "a" -> "v", Set("a", nil) and Delete("a") agree
    on Get but not on iteration: after the Set an iterator still stops on "a",
    valid, with a nil value, and after the Delete it has nothing to visit.  A
    batch that buffers the same Set("a", nil) deletes the key. *)
Theorem C3_set_nil_keeps_the_key :
  let k := Some ["a"%byte] in
  let s0 := fst (Store_Set (fst StoreConstructor) k (Some ["v"%byte])) in
  let s1 := fst (Store_Set s0 k None) in
  let s2 := fst (Store_Delete s0 k) in
  Store_Get s1 k = (None, None) /\ Store_Get s2 k = (None, None)
  /\ (exists w1, Store_Iterator s1 None = Ok w1 /\
        Iterator_Current w1 = (k, None, true) /\ Iterator_Valid w1 = true /\
        Iterator_Key w1 = k /\ Iterator_Value w1 = None)
  /\ (exists w2, Store_Iterator s2 None = Ok w2 /\
        Iterator_Current w2 = (None, None, false) /\ Iterator_Valid w2 = false /\
        Iterator_Key w2 = None)
  /\ s_t s1 = [(k, IBytes None)] /\ s_t s2 = []
  /\ Batch_Execute [] (Batch_Set (Store_NewBatch s0) k None) s0
       = Ok (mkBatch [] [] (Some ∅), s2, None).
Proof.
  cbv zeta.
  split; [reflexivity|]. split; [reflexivity|].
  split; [eexists; repeat split|].
  split; [eexists; repeat split|].
  split; [reflexivity|]. split; reflexivity.
Qed.

(** ** Batch: the plain writes *)

Lemma apply_writes_combine ks' : forall pre vs' t,
  length ks' = length vs' ->
  apply_writes (length pre) ks' (pre ++ vs') t
    = Ok (fold_left write_entry (combine ks' vs') t).
Proof.
  induction ks' as [|k ks' IH]; intros pre [|v vs'] t Hlen; simpl in *;
    try discriminate; try reflexivity.
  rewrite nth_error_app2 by lia. rewrite Nat.sub_diag. simpl.
  specialize (IH (pre ++ [v]) vs' (apply_value t k v)).
  rewrite length_app, <- app_assoc in IH. simpl in IH.
  rewrite Nat.add_1_r in IH. apply IH. lia.
Qed.

Lemma apply_writes_parallel ks0 vs0 t :
  length ks0 = length vs0 ->
  apply_writes 0 ks0 vs0 t = Ok (fold_left write_entry (combine ks0 vs0) t).
Proof. intros H. exact (apply_writes_combine ks0 [] vs0 t H). Qed.

Lemma fold_writes_sorted kvs : forall t,
  Tree_sorted t = true -> Tree_sorted (fold_left write_entry kvs t) = true.
Proof.
  induction kvs as [|[k v] kvs IH]; intros t Hs; simpl; [exact Hs|].
  apply IH. now apply Tree_sorted_apply_value.
Qed.

(** After the plain writes a key holds what its last entry wrote. *)
Lemma Tree_Get_fold_writes kvs : forall t k,
  Tree_sorted t = true ->
  Tree_Get (fold_left write_entry kvs t) k =
    match last_write k kvs with
    | Some v => stored v
    | None => Tree_Get t k
    end.
Proof.
  induction kvs as [|[k0 v0] kvs IH]; intros t k Hs; simpl; [reflexivity|].
  rewrite IH by now apply Tree_sorted_apply_value.
  destruct (last_write k kvs); [reflexivity|].
  unfold write_entry. simpl. rewrite (Tree_Get_apply_value _ _ _ _ Hs).
  rewrite (cmp_antisym k k0). now destruct (cmp k k0).
Qed.

(** ** Batch: the merge chains *)

Lemma bytes_of_string_inj key key' :
  cmp (bytes_of_string key) (bytes_of_string key') = Eq -> key = key'.
Proof.
  rewrite cmp_eq_iff. simpl. intros E.
  rewrite <- (string_of_list_byte_of_string key), E.
  apply string_of_list_byte_of_string.
Qed.

Lemma bytes_of_string_of_bytes l :
  bytes_of_string (string_of_bytes (Some l)) = Some l.
Proof.
  unfold bytes_of_string, string_of_bytes. simpl.
  now rewrite list_byte_of_string_of_list_byte.
Qed.

Lemma chain_Merge_app c1 c2 key v :
  AssociativeMergeChain_Merge (c1 ++ c2) key v =
    match AssociativeMergeChain_Merge c1 key v with
    | (x, None) => AssociativeMergeChain_Merge c2 key x
    | (x, Some er) => (x, Some er)
    end.
Proof.
  revert v. induction c1 as [|m c1 IH]; intros v; simpl; [reflexivity|].
  destruct (Merge m key v) as [x [er|]]; [reflexivity | apply IH].
Qed.

Lemma apply_merges_app pre : forall post t t1,
  apply_merges pre t = (t1, None) ->
  apply_merges (pre ++ post) t = apply_merges post t1.
Proof.
  induction pre as [|[key mc] pre IH]; intros post t t1; simpl.
  - now intros [= ->].
  - destruct (AssociativeMergeChain_Merge mc (bytes_of_string key)
                (current_value t (bytes_of_string key))) as [x [er|]];
      [discriminate | apply IH].
Qed.

Lemma apply_merges_sorted order : forall t,
  Tree_sorted t = true -> Tree_sorted (fst (apply_merges order t)) = true.
Proof.
  induction order as [|[key mc] order IH]; intros t Hs; simpl; [exact Hs|].
  destruct (AssociativeMergeChain_Merge mc (bytes_of_string key)
              (current_value t (bytes_of_string key))) as [x [er|]]; [exact Hs|].
  apply IH. now apply Tree_sorted_apply_value.
Qed.

(** The merge loop leaves alone every key that has no chain among those it
    ran, also when it stops on an error. *)
Lemma apply_merges_Get_other order : forall t t1 er k,
  Tree_sorted t = true -> apply_merges order t = (t1, er) ->
  (forall key mc, In (key, mc) order -> cmp (bytes_of_string key) k <> Eq) ->
  Tree_Get t1 k = Tree_Get t k.
Proof.
  induction order as [|[key mc] order IH]; intros t t1 er k Hs; simpl.
  - now intros [= -> _] _.
  - destruct (AssociativeMergeChain_Merge mc (bytes_of_string key)
                (current_value t (bytes_of_string key))) as [x [er'|]].
    + now intros [= -> _] _.
    + intros Hrun Hne.
      rewrite (IH _ _ _ k (Tree_sorted_apply_value _ _ x Hs) Hrun)
        by (intros key' mc' Hin; apply (Hne key' mc'); now right).
      rewrite (Tree_Get_apply_value _ _ _ _ Hs).
      specialize (Hne key mc (or_introl eq_refl)).
      now destruct (cmp (bytes_of_string key) k).
Qed.

(** A chain that ran folds the value its key had before the batch, and the
    key ends up holding the result. *)
Lemma apply_merges_Get_key order : forall t t1 key mc,
  List.NoDup (map fst order) -> In (key, mc) order ->
  Tree_sorted t = true -> apply_merges order t = (t1, None) ->
  exists x,
    AssociativeMergeChain_Merge mc (bytes_of_string key)
      (current_value t (bytes_of_string key)) = (x, None)
    /\ Tree_Get t1 (bytes_of_string key) = stored x.
Proof.
  induction order as [|[key0 mc0] order IH]; intros t t1 key mc Hnd Hin Hs; [easy|].
  simpl in Hnd. apply NoDup_cons_iff in Hnd as [Hfresh Hnd].
  simpl.
  destruct (AssociativeMergeChain_Merge mc0 (bytes_of_string key0)
              (current_value t (bytes_of_string key0))) as [x0 [er|]] eqn:E0;
    [discriminate|].
  intros Hrun. destruct Hin as [[= -> ->] | Hin].
  - exists x0. split; [exact E0|].
    rewrite (apply_merges_Get_other _ _ _ _ _ (Tree_sorted_apply_value _ _ x0 Hs) Hrun).
    + rewrite (Tree_Get_apply_value _ _ _ _ Hs). now rewrite cmp_refl.
    + intros key' mc' Hin' E. apply bytes_of_string_inj in E. subst key'.
      apply Hfresh. apply in_map_iff. exists (key, mc'). now split.
  - assert (Hne : cmp (bytes_of_string key0) (bytes_of_string key) <> Eq).
    { intros E. apply bytes_of_string_inj in E. subst key0.
      apply Hfresh. apply in_map_iff. exists (key, mc). now split. }
    destruct (IH _ _ key mc Hnd Hin (Tree_sorted_apply_value _ _ x0 Hs) Hrun)
      as (x & Hx & Hget).
    exists x. split; [|exact Hget].
    rewrite <- Hx. f_equal. apply current_value_Get.
    rewrite (Tree_Get_apply_value _ _ _ _ Hs).
    now destruct (cmp (bytes_of_string key0) (bytes_of_string key)).
Qed.

(** The entries of a [range] are one per key. *)
Lemma fmap_fst_map {A B : Type} (l : list (A * B)) : l.*1 = map fst l.
Proof. induction l as [|x l IH]; [reflexivity|]. cbn. now rewrite IH. Qed.

Lemma range_order_NoDup w order :
  range_order w order -> List.NoDup (map fst order).
Proof.
  unfold range_order. intros HP.
  apply (Permutation_NoDup (l := map fst (ms_entries w))).
  - apply Permutation_map. now symmetry.
  - unfold ms_entries. destruct (ms w) as [m|]; simpl; [|constructor].
    rewrite <- fmap_fst_map. apply NoDup_ListNoDup. apply NoDup_fst_map_to_list.
Qed.


(** ** Batch: the parallel buffers *)

Lemma range_order_nil w order : ms_entries w = [] -> range_order w order -> order = [].
Proof.
  unfold range_order. intros -> HP. apply Permutation_nil. now symmetry.
Qed.

(** On parallel buffers [Execute] returns. *)
Lemma Batch_Execute_total order w s :
  Batch_ok w ->
  exists w' s' er, Batch_Execute order w s = Ok (w', s', er) /\ Batch_ok w'.
Proof.
  intros Hok. unfold Batch_Execute.
  destruct (apply_merges order (s_t s)) as [t1 [er|]].
  - do 3 eexists. split; reflexivity.
  - rewrite (apply_writes_parallel _ _ _ Hok). do 3 eexists. split; reflexivity.
Qed.

(** C9: NewBatch gives buffers of equal length, and Set, Delete, Merge,
    Close and Execute keep them so; hence every index of the keys buffer is
    an index of the values buffer, and Execute never indexes out of range. *)
Theorem C9_buffers_stay_parallel (w : Batch) (s : Store) :
  Batch_ok w ->
  Batch_ok (Store_NewBatch s)
  /\ (forall k v, Batch_ok (Batch_Set w k v))
  /\ (forall k, Batch_ok (Batch_Delete w k))
  /\ (forall k oper w', Batch_Merge w k oper = Ok w' -> Batch_ok w')
  /\ Batch_ok (fst (Batch_Close w))
  /\ (forall order, exists w' s' er,
        Batch_Execute order w s = Ok (w', s', er) /\ Batch_ok w')
  /\ (forall i k, nth_error (ks w) i = Some k ->
        exists v, nth_error (vs w) i = Some v).
Proof.
  unfold Batch_ok. intros Hok.
  split; [reflexivity|].
  split; [intros k v; simpl; rewrite !length_app; simpl; lia|].
  split; [intros k; simpl; rewrite !length_app; simpl; lia|].
  split.
  { intros k oper w'. unfold Batch_Merge. destruct (ms w); [|discriminate].
    now intros [= <-]. }
  split; [reflexivity|].
  split.
  - intros order. now apply Batch_Execute_total.
  - intros i k Hi.
    assert (Hlt : (i < length (vs w))%nat).
    { rewrite <- Hok. apply nth_error_Some. congruence. }
    apply nth_error_Some in Hlt.
    destruct (nth_error (vs w) i) as [v|]; [eauto | congruence].
Qed.

Lemma C9_buffers_stay_parallel_witness :
  let s := fst StoreConstructor in
  let w := Batch_Delete (Batch_Set (Store_NewBatch s) (Some ["a"%byte]) (Some ["1"%byte]))
             (Some ["b"%byte]) in
  Batch_ok w /\
  (forall order, exists w' s' er,
      Batch_Execute order w s = Ok (w', s', er) /\ Batch_ok w').
Proof.
  intros s w.
  assert (Hok : Batch_ok w) by reflexivity.
  split; [exact Hok|].
  exact (proj1 (proj2 (proj2 (proj2 (proj2 (proj2
           (C9_buffers_stay_parallel w s Hok))))))).
Defined.

(** C10: after Close the buffers are nil slices and the merge map is a nil
    map.  Set and Delete append to the nil slices, Execute ranges over
    nothing more than what was buffered since and returns nil, and Merge
    panics on the assignment into the nil map, also on a batch that came
    from NewBatch and was only closed. *)
Theorem C10_use_after_Close (w : Batch) (s : Store) (k v : bytes)
    (oper : AssociativeMerge) :
  let wc := fst (Batch_Close w) in
  Batch_Set wc k v = mkBatch [k] [v] None
  /\ Batch_Delete wc k = mkBatch [k] [None] None
  /\ (forall order, range_order wc order ->
        Batch_Execute order wc s = Ok (mkBatch [] [] (Some ∅), s, None))
  /\ (forall order, range_order (Batch_Set wc k v) order ->
        Batch_Execute order (Batch_Set wc k v) s
          = Ok (mkBatch [] [] (Some ∅), mkStore (apply_value (s_t s) k v), None))
  /\ Batch_Merge wc k oper = Panic
  /\ Batch_Merge (Batch_Set wc k v) k oper = Panic
  /\ Batch_Merge (Batch_Delete wc k) k oper = Panic
  /\ Batch_Merge (fst (Batch_Close (Store_NewBatch s))) k oper = Panic.
Proof.
  cbv zeta.
  split; [reflexivity|]. split; [reflexivity|].
  split.
  { intros order Ho.
    rewrite (range_order_nil (fst (Batch_Close w)) order eq_refl Ho).
    unfold Batch_Execute. simpl. now destruct s. }
  split.
  { intros order Ho.
    rewrite (range_order_nil (Batch_Set (fst (Batch_Close w)) k v) order eq_refl Ho).
    reflexivity. }
  now repeat split.
Qed.

Lemma C10_use_after_Close_witness :
  let s := fst StoreConstructor in
  let w := Batch_Set (Store_NewBatch s) (Some ["a"%byte]) (Some ["1"%byte]) in
  Batch_Execute [] (fst (Batch_Close w)) s = Ok (mkBatch [] [] (Some ∅), s, None)
  /\ Batch_Merge (fst (Batch_Close w)) (Some ["a"%byte]) (append_op ["x"%byte]) = Panic.
Proof.
  intros s w.
  pose proof (C10_use_after_Close w s (Some ["a"%byte]) None (append_op ["x"%byte]))
    as (_ & _ & Hexec & _ & Hmerge & _).
  split; [|exact Hmerge].
  apply Hexec. unfold range_order. simpl. constructor.
Defined.

(** ** Batch: Execute *)






(** C2: when the chain of some key fails, on an operator that reports an
    error after the operators before it in the chain succeeded, Execute
    returns that error, and the store is left as the chains run before it
    made it: each of their keys holds the fold of its chain over the value it
    had before the batch, every other key holds what it held before the
    batch, and neither the chains after the failing one nor the plain writes
    are applied. *)
Theorem C2_merge_failure_aborts (w : Batch) (s : Store)
    (pre post : list (string * AssociativeMergeChain)) (key : string)
    (c1 c2 : AssociativeMergeChain) (m : AssociativeMerge)
    (t1 : Tree) (x1 junk : bytes) (er : err) :
  Tree_sorted (s_t s) = true ->
  range_order w (pre ++ (key, c1 ++ m :: c2) :: post) ->
  apply_merges pre (s_t s) = (t1, None) ->
  AssociativeMergeChain_Merge c1 (bytes_of_string key)
    (current_value t1 (bytes_of_string key)) = (x1, None) ->
  Merge m (bytes_of_string key) x1 = (junk, Some er) ->
  Batch_Execute (pre ++ (key, c1 ++ m :: c2) :: post) w s
    = Ok (mkBatch [] [] (Some ∅), mkStore t1, Some er)
  /\ (forall key' mc', In (key', mc') pre ->
        exists x,
          AssociativeMergeChain_Merge mc' (bytes_of_string key')
            (fst (Store_Get s (bytes_of_string key'))) = (x, None)
          /\ Tree_Get t1 (bytes_of_string key') = stored x
          /\ Store_Get (mkStore t1) (bytes_of_string key') = (x, None))
  /\ (forall k, (forall key' mc', In (key', mc') pre ->
                   cmp (bytes_of_string key') k <> Eq) ->
        Tree_Get t1 k = Tree_Get (s_t s) k
        /\ Store_Get (mkStore t1) k = Store_Get s k).
Proof.
  intros Hs Ho Hpre Hc1 Hm. split; [|split].
  - unfold Batch_Execute.
    rewrite (apply_merges_app pre _ _ _ Hpre). simpl.
    rewrite chain_Merge_app, Hc1. simpl. rewrite Hm. reflexivity.
  - intros key' mc' Hin.
    assert (Hnd : List.NoDup (map fst pre)).
    { pose proof (range_order_NoDup _ _ Ho) as H.
      rewrite map_app in H. now apply NoDup_app_remove_r in H. }
    destruct (apply_merges_Get_key pre _ _ key' mc' Hnd Hin Hs Hpre) as (x & Hx & Hg).
    exists x. rewrite !Store_Get_current. simpl.
    split; [exact Hx|]. split; [exact Hg|].
    now rewrite (current_value_stored _ _ _ Hg).
  - intros k Hother.
    pose proof (apply_merges_Get_other pre _ _ _ k Hs Hpre Hother) as Hg.
    split; [exact Hg|].
    rewrite !Store_Get_current. simpl. now rewrite (current_value_Get _ _ _ _ Hg).
Qed.

Lemma C2_merge_failure_aborts_witness :
  let s := fst (Store_Set (fst StoreConstructor) (Some ["c"%byte]) (Some ["0"%byte])) in
  let ca := [append_op ["x"%byte]] in
  let cb := [append_op ["y"%byte]; failing_op (OperErr "boom"); append_op ["z"%byte]] in
  let w := mkBatch [Some ["c"%byte]] [Some ["9"%byte]]
             (Some (<["b"%string := cb]> (<["a"%string := ca]> ∅))) in
  Batch_Execute [("a"%string, ca); ("b"%string, cb)] w s
    = Ok (mkBatch [] [] (Some ∅),
          mkStore [(Some ["a"%byte], IBytes (Some ["x"%byte]));
                   (Some ["c"%byte], IBytes (Some ["0"%byte]))],
          Some (OperErr "boom")).
Proof.
  intros s ca cb w.
  refine (proj1 (C2_merge_failure_aborts w s [("a"%string, ca)] [] "b"%string
            [append_op ["y"%byte]] [append_op ["z"%byte]]
            (failing_op (OperErr "boom"))
            [(Some ["a"%byte], IBytes (Some ["x"%byte]));
             (Some ["c"%byte], IBytes (Some ["0"%byte]))]
            (Some ["y"%byte]) None (OperErr "boom")
            eq_refl _ eq_refl eq_refl eq_refl)).
  unfold range_order. vm_compute.
  first [apply Permutation_refl | apply perm_swap].
Defined.



(** ** The tree invariant holds in every store the package builds *)

Lemma apply_merges_ok order : forall t,
  Tree_ok t = true -> Tree_ok (fst (apply_merges order t)) = true.
Proof.
  induction order as [|[key mc] order IH]; intros t Hok; simpl; [exact Hok|].
  destruct (AssociativeMergeChain_Merge mc (bytes_of_string key)
              (current_value t (bytes_of_string key))) as [x [er|]]; [exact Hok|].
  apply IH. now apply Tree_ok_apply_value.
Qed.

Lemma apply_writes_ok ks' : forall i vs0 t t2,
  Tree_ok t = true -> apply_writes i ks' vs0 t = Ok t2 -> Tree_ok t2 = true.
Proof.
  induction ks' as [|k ks' IH]; intros i vs0 t t2 Hok; simpl.
  - now intros [= <-].
  - destruct (nth_error vs0 i) as [v|]; [|discriminate].
    apply IH. now apply Tree_ok_apply_value.
Qed.

Lemma Batch_Execute_Tree_ok order w s w' s' er :
  Tree_ok (s_t s) = true ->
  Batch_Execute order w s = Ok (w', s', er) -> Tree_ok (s_t s') = true.
Proof.
  intros Hok. unfold Batch_Execute.
  pose proof (apply_merges_ok order (s_t s) Hok) as H1.
  destruct (apply_merges order (s_t s)) as [t1 [er1|]]; simpl in H1.
  - now intros [= _ <- _].
  - destruct (apply_writes 0 (ks w) (vs w) t1) as [t2|] eqn:E; [|discriminate].
    intros [= _ <- _]. simpl. exact (apply_writes_ok _ _ _ _ _ H1 E).
Qed.

(** * Further properties of the package *)

(** ** [itemCompare] *)

(** X1: itemCompare returns -1, 0 or +1; it is 0 exactly on keys with the
    same bytes, so that a nil key and an empty key are one key; swapping the
    arguments negates it; and "below" is transitive. *)
Theorem X1_itemCompare_is_a_total_order (a c d : bytes) :
  (itemCompare a c = -1 \/ itemCompare a c = 0 \/ itemCompare a c = 1)
  /\ (itemCompare a c = 0 <-> content a = content c)
  /\ itemCompare c a = - itemCompare a c
  /\ (itemCompare a c < 0 -> itemCompare c d < 0 -> itemCompare a d < 0)
  /\ itemCompare None (Some []) = 0.
Proof.
  unfold itemCompare, bytes_Compare.
  rewrite (lex_compare_antisym (content a) (content c)).
  split; [|split; [|split; [|split]]].
  - destruct (lex_compare (content a) (content c)); auto.
  - split.
    + destruct (lex_compare (content a) (content c)) eqn:E; try discriminate.
      intros _. now apply lex_compare_eq.
    + intros ->. now rewrite lex_compare_refl.
  - destruct (lex_compare (content a) (content c)); reflexivity.
  - destruct (lex_compare (content a) (content c)) eqn:E1; try (simpl; lia).
    destruct (lex_compare (content c) (content d)) eqn:E2; try (simpl; lia).
    now rewrite (lex_compare_trans _ _ _ E1 E2).
  - reflexivity.
Qed.

Lemma X1_itemCompare_is_a_total_order_witness :
  itemCompare (Some ["a"%byte]) (Some ["b"%byte; "a"%byte]) < 0.
Proof.
  apply (proj1 (proj2 (proj2 (proj2
           (X1_itemCompare_is_a_total_order
              (Some ["a"%byte]) (Some ["a"%byte; "z"%byte])
              (Some ["b"%byte; "a"%byte])))))); reflexivity.
Defined.

(** ** Store: keys, and how point writes compose *)

Lemma Tree_Delete_content t k k' :
  content k = content k' -> Tree_Delete t k = Tree_Delete t k'.
Proof.
  intros E. induction t as [|[k0 v0] t IH]; simpl; [reflexivity|].
  rewrite (cmp_content_l k k' k0 E), IH. reflexivity.
Qed.

(** X2: the store tells keys apart by their bytes only.  Two keys with the
    same content, such as nil and the empty slice, read the same value, delete
    the same entry, and a value set under the one is read under the other. *)
Theorem X2_keys_are_their_content (s : Store) (k k' v : bytes) :
  content k = content k' ->
  Store_Get s k = Store_Get s k'
  /\ Store_Delete s k = Store_Delete s k'
  /\ Store_Get (fst (Store_Set s k v)) k' = (v, None)
  /\ (forall k2, Store_Get (fst (Store_Set s k v)) k2
                 = Store_Get (fst (Store_Set s k' v)) k2).
Proof.
  intros E. split; [|split; [|split]].
  - rewrite !Store_Get_current.
    now rewrite (current_value_Get _ _ _ _ (Tree_Get_content (s_t s) k k' E)).
  - unfold Store_Delete. now rewrite (Tree_Delete_content _ _ _ E).
  - rewrite Store_Get_Set. now rewrite (proj2 (cmp_eq_iff k k') E).
  - intros k2. rewrite !Store_Get_Set. now rewrite (cmp_content_l k k' k2 E).
Qed.

Lemma X2_keys_are_their_content_witness :
  let s := fst (Store_Set (fst StoreConstructor) None (Some ["1"%byte])) in
  Store_Get s (Some []) = (Some ["1"%byte], None)
  /\ Store_Delete s None = Store_Delete s (Some []).
Proof.
  intros s.
  pose proof (X2_keys_are_their_content (fst StoreConstructor) None (Some [])
                (Some ["1"%byte]) eq_refl) as (_ & _ & Hget & _).
  pose proof (X2_keys_are_their_content s None (Some []) None eq_refl)
    as (_ & Hdel & _).
  split; [exact Hget | exact Hdel].
Defined.

Lemma Tree_Set_Set_same t k v v' :
  Tree_Set (Tree_Set t k v) k v' = Tree_Set t k v'.
Proof.
  induction t as [|[k0 v0] t IH]; simpl.
  - now rewrite cmp_refl.
  - destruct (cmp k k0) eqn:E; simpl.
    + now rewrite E.
    + now rewrite cmp_refl.
    + now rewrite E, IH.
Qed.

Lemma Tree_Delete_Set_same t k v :
  Tree_Delete (Tree_Set t k v) k = Tree_Delete t k.
Proof.
  induction t as [|[k0 v0] t IH]; simpl.
  - now rewrite cmp_refl.
  - destruct (cmp k k0) eqn:E; simpl.
    + now rewrite E.
    + now rewrite cmp_refl.
    + now rewrite E, IH.
Qed.

Lemma Tree_Delete_Delete_same t k :
  Tree_sorted t = true -> Tree_Delete (Tree_Delete t k) k = Tree_Delete t k.
Proof.
  intros Hs. apply Tree_Delete_absent.
  now rewrite (Tree_Get_Delete_eq t k Hs).
Qed.

Lemma Tree_Set_same_value t k v :
  Tree_Get t k = (v, true) -> Tree_Set t k v = t.
Proof.
  induction t as [|[k0 v0] t IH]; simpl; [discriminate|].
  destruct (cmp k k0); [now intros [= ->] | discriminate |].
  intros H. now rewrite IH.
Qed.

(** X4: a Set overwrites an earlier Set of the same key, a Delete undoes a
    Set as if the key had only been deleted, a second Delete changes nothing,
    and a Set of the value the key already holds leaves the store as it
    is. *)
Theorem X4_point_writes_compose (s : Store) (k v v' : bytes) :
  Tree_sorted (s_t s) = true ->
  fst (Store_Set (fst (Store_Set s k v)) k v') = fst (Store_Set s k v')
  /\ fst (Store_Delete (fst (Store_Set s k v)) k) = fst (Store_Delete s k)
  /\ fst (Store_Delete (fst (Store_Delete s k)) k) = fst (Store_Delete s k)
  /\ (Tree_Get (s_t s) k = (IBytes v, true) -> fst (Store_Set s k v) = s).
Proof.
  intros Hs. unfold Store_Set, Store_Delete. simpl.
  split; [now rewrite Tree_Set_Set_same|].
  split; [now rewrite Tree_Delete_Set_same|].
  split; [now rewrite Tree_Delete_Delete_same|].
  intros H. rewrite (Tree_Set_same_value _ _ _ H). now destruct s.
Qed.

Lemma X4_point_writes_compose_witness :
  let s := fst (Store_Set (fst StoreConstructor) (Some ["b"%byte]) (Some ["1"%byte])) in
  fst (Store_Delete (fst (Store_Set s (Some ["a"%byte]) (Some ["2"%byte])))
         (Some ["a"%byte])) = fst (Store_Delete s (Some ["a"%byte]))
  /\ fst (Store_Set s (Some ["b"%byte]) (Some ["1"%byte])) = s.
Proof.
  intros s.
  pose proof (X4_point_writes_compose s (Some ["a"%byte]) (Some ["2"%byte]) None
                eq_refl) as (_ & Hd & _).
  pose proof (X4_point_writes_compose s (Some ["b"%byte]) (Some ["1"%byte]) None
                eq_refl) as (_ & _ & _ & Hsame).
  split; [exact Hd | apply Hsame; reflexivity].
Defined.

(** X3: every store a program can get to, from the constructor by Set,
    Delete and Execute, holds its keys in strictly ascending order, one entry
    per key content, and holds no value that is a nil interface. *)
Theorem X3_reachable_store_is_well_formed (s : Store) :
  reachable s -> Tree_ok (s_t s) = true.
Proof.
  induction 1 as [|s k v _ IH|s k _ IH|s order w w' s' er _ IH Hex].
  - reflexivity.
  - now apply Tree_ok_Set.
  - now apply Tree_ok_Delete.
  - exact (Batch_Execute_Tree_ok _ _ _ _ _ _ IH Hex).
Qed.

Lemma X3_reachable_store_is_well_formed_witness :
  Tree_ok (s_t (fst (Store_Delete
                       (fst (Store_Set (fst StoreConstructor)
                               (Some ["a"%byte]) None))
                       (Some ["b"%byte])))) = true.
Proof.
  apply X3_reachable_store_is_well_formed.
  apply reach_Delete, reach_Set, reach_new.
Defined.

(** ** Iterator: where the cursor lands and what a full pass visits *)

Lemma Tree_rank_nil t k : content k = [] -> Tree_rank t k = 0%nat.
Proof.
  intros E. destruct t as [|[k0 v0] t]; simpl; [reflexivity|].
  rewrite cmp_lex, E. simpl. now destruct (content k0).
Qed.

Lemma Iterator_Seek_landed s w k :
  Iterator_Seek s w k = Ok (landed (s_t s) (Tree_rank (s_t s) k)).
Proof.
  unfold Iterator_Seek, Iterator_Next, Enumerator_Next, landed. simpl.
  now destruct (nth_error (s_t s) (Tree_rank (s_t s) k)) as [[kc vc]|].
Qed.

Lemma Iterator_SeekFirst_landed s w :
  s_t s <> [] -> Iterator_SeekFirst s w = Ok (landed (s_t s) 0).
Proof.
  unfold Iterator_SeekFirst, landed. destruct (s_t s) as [|[k0 v0] t] eqn:E; [easy|].
  intros _. unfold Iterator_Next, Enumerator_Next. simpl. now rewrite E.
Qed.

Lemma Iterator_Next_landed s i en :
  nth_error (s_t s) i = Some en ->
  Iterator_Next s (landed (s_t s) i) = Ok (landed (s_t s) (S i)).
Proof.
  intros E. unfold landed at 1. rewrite E. destruct en as [k v].
  unfold Iterator_Next, Enumerator_Next, landed. cbn [currErr e e_err e_i].
  now destruct (nth_error (s_t s) (S i)) as [[k1 v1]|].
Qed.

(** X5: SeekFirst is Seek(nil).  On a store that holds a key the two leave
    the iterator in the same state; on an empty store both leave it with no
    entry, before and after any further Next. *)
Theorem X5_SeekFirst_is_Seek_nil (s : Store) (w w' : Iterator) :
  (s_t s <> [] -> Iterator_SeekFirst s w = Iterator_Seek s w' None)
  /\ (s_t s = [] ->
      forall ss, exists w1 w2 u1 u2,
        Iterator_SeekFirst s w = Ok w1 /\ Iterator_Seek s w' None = Ok w2
        /\ Iterator_Nexts ss w1 = Ok u1 /\ Iterator_Nexts ss w2 = Ok u2
        /\ Iterator_Current u1 = (None, None, false)
        /\ Iterator_Current u2 = (None, None, false)).
Proof.
  split.
  - intros Hne. rewrite (Iterator_SeekFirst_landed s w Hne), Iterator_Seek_landed.
    now rewrite (Tree_rank_nil (s_t s) None eq_refl).
  - intros Hempty ss.
    unfold Iterator_SeekFirst, Iterator_Seek, Iterator_Next, Enumerator_Next.
    rewrite Hempty. simpl.
    destruct (Iterator_Nexts_done ss
                (mkIterator None INil INil (Some iteratorDoneErr)))
      as (u1 & Hu1 & _ & Hk1); [discriminate | reflexivity |].
    destruct (Iterator_Nexts_done ss
                (mkIterator (Some (mkEnumerator 0 (Some EOF))) INil INil (Some EOF)))
      as (u2 & Hu2 & _ & Hk2); [discriminate | reflexivity |].
    do 2 eexists. exists u1, u2.
    split; [reflexivity|]. split; [reflexivity|].
    split; [exact Hu1|]. split; [exact Hu2|].
    split; now apply Iterator_Current_none.
Qed.

Lemma X5_SeekFirst_is_Seek_nil_witness :
  let s := fst (Store_Set (fst StoreConstructor) (Some ["a"%byte]) (Some ["1"%byte])) in
  Iterator_SeekFirst s (mkIterator None INil INil None)
    = Iterator_Seek s (mkIterator None INil INil (Some EOF)) None.
Proof.
  intros s.
  apply (proj1 (X5_SeekFirst_is_Seek_nil s (mkIterator None INil INil None)
                  (mkIterator None INil INil (Some EOF)))).
  discriminate.
Defined.

Lemma skipn_nth_error {A : Type} (l : list A) : forall i x,
  nth_error l i = Some x -> skipn i l = x :: skipn (S i) l.
Proof.
  induction l as [|y l IH]; intros [|i] x; simpl; try discriminate.
  - now intros [= ->].
  - intros H. now rewrite (IH i x H).
Qed.

Lemma skipn_nth_error_None {A : Type} (l : list A) : forall i,
  nth_error l i = None -> skipn i l = [].
Proof.
  induction l as [|y l IH]; intros [|i]; simpl; try easy. apply IH.
Qed.

(** The reader's loop, started where the cursor reads index [i], collects
    the entries from [i] on. *)
Lemma Iterator_collect_landed s : forall fuel i,
  Tree_typed (s_t s) = true -> (length (s_t s) - i < fuel)%nat ->
  Iterator_collect fuel s (landed (s_t s) i)
    = Ok (map entry_pair (skipn i (s_t s))).
Proof.
  induction fuel as [|n IH]; intros i Ht Hfuel; [lia|].
  destruct (nth_error (s_t s) i) as [[k v]|] eqn:E.
  - assert (Hi : (i < length (s_t s))%nat) by (apply nth_error_Some; congruence).
    destruct (Tree_typed_In _ _ _ Ht (nth_error_In _ _ E)) as [x ->].
    cbn [Iterator_collect].
    rewrite (Iterator_Next_landed s i _ E), (IH (S i) Ht) by lia.
    rewrite (skipn_nth_error _ _ _ E). unfold landed. rewrite E. reflexivity.
  - rewrite (skipn_nth_error_None _ _ E). unfold landed. rewrite E. reflexivity.
Qed.

Lemma Tree_sorted_keys_ascending t :
  keys_ascending (map fst t) = Tree_sorted t.
Proof.
  induction t as [|[k v] t IH]; simpl; [reflexivity|].
  rewrite IH. f_equal. clear. induction t as [|en t IH]; simpl; [reflexivity|].
  now rewrite IH.
Qed.

Lemma Tree_Get_In t : forall k v,
  Tree_sorted t = true -> In (k, v) t -> Tree_Get t k = (v, true).
Proof.
  induction t as [|[k0 v0] t IH]; intros k v Hs Hin; [easy|].
  destruct Hin as [[= -> ->] | Hin]; simpl.
  - now rewrite cmp_refl.
  - assert (L : cmp k0 k = Lt).
    { apply (sorted_head_below k0 v0 t k Hs). apply in_map_iff. now exists (k, v). }
    rewrite (proj2 (cmp_gt_lt k k0) L). apply IH; [|exact Hin].
    now apply Tree_sorted_tail in Hs.
Qed.

Lemma Tree_Get_found t : forall k v,
  Tree_Get t k = (v, true) -> exists k', content k' = content k /\ In (k', v) t.
Proof.
  induction t as [|[k0 v0] t IH]; intros k v; simpl; [discriminate|].
  destruct (cmp k k0) eqn:E; [|discriminate|].
  - intros [= ->]. exists k0. split; [|now left].
    symmetry. now apply cmp_eq_iff.
  - intros H. destruct (IH k v H) as (k' & Hc & Hin). exists k'. auto.
Qed.

Lemma map_fst_entry_pair t : map fst (map entry_pair t) = map fst t.
Proof. rewrite map_map. reflexivity. Qed.

Lemma In_entry_pair t k v :
  Tree_typed t = true -> In (k, v) (map entry_pair t) <-> In (k, IBytes v) t.
Proof.
  intros Ht. rewrite in_map_iff. split.
  - intros ([k0 v0] & E & Hin).
    destruct (Tree_typed_In _ _ _ Ht Hin) as [x ->].
    unfold entry_pair in E. simpl in E. now injection E as -> ->.
  - intros Hin. now exists (k, IBytes v).
Qed.

(** X6: on a well-formed store, the reader's loop started by SeekFirst
    returns without a panic and visits every entry of the store once, the
    keys in strictly ascending order; each pair it yields is what Get returns
    for that key, and every key Get finds is among the keys visited. *)
Theorem X6_SeekFirst_pass_visits_every_entry (s : Store) (w : Iterator)
    (fuel : nat) :
  Tree_ok (s_t s) = true -> (length (s_t s) < fuel)%nat ->
  exists w1 visited,
    Iterator_SeekFirst s w = Ok w1
    /\ Iterator_collect fuel s w1 = Ok visited
    /\ visited = map entry_pair (s_t s)
    /\ keys_ascending (map fst visited) = true
    /\ (forall k v, In (k, v) visited -> Store_Get s k = (v, None))
    /\ (forall k, snd (Tree_Get (s_t s) k) = true ->
          exists k', content k' = content k
                     /\ In (k', fst (Store_Get s k)) visited).
Proof.
  intros Hok Hfuel.
  pose proof (Tree_ok_sorted _ Hok) as Hs. pose proof (Tree_ok_typed _ Hok) as Ht.
  assert (Hrun : exists w1, Iterator_SeekFirst s w = Ok w1
                   /\ Iterator_collect fuel s w1 = Ok (map entry_pair (s_t s))).
  { assert (Hcase : s_t s = [] \/ s_t s <> [])
      by (destruct (s_t s); [now left | now right]).
    destruct Hcase as [E | Hne].
    - unfold Iterator_SeekFirst, Iterator_Next. rewrite E. simpl.
      eexists. split; [reflexivity|]. destruct fuel; reflexivity.
    - rewrite (Iterator_SeekFirst_landed s w Hne).
      eexists. split; [reflexivity|].
      rewrite (Iterator_collect_landed s fuel 0 Ht) by lia.
      reflexivity. }
  destruct Hrun as (w1 & Hseek & Hcol).
  exists w1, (map entry_pair (s_t s)).
  split; [exact Hseek|]. split; [exact Hcol|]. split; [reflexivity|].
  split; [now rewrite map_fst_entry_pair, Tree_sorted_keys_ascending|].
  split.
  - intros k v Hin. apply (In_entry_pair _ _ _ Ht) in Hin.
    rewrite Store_Get_current. unfold current_value.
    now rewrite (Tree_Get_In _ _ _ Hs Hin).
  - intros k Hfound.
    destruct (Tree_Get (s_t s) k) as [v ok] eqn:E. simpl in Hfound. subst ok.
    destruct (Tree_Get_found _ _ _ E) as (k' & Hc & Hin).
    destruct (Tree_typed_In _ _ _ Ht Hin) as [x ->].
    exists k'. split; [exact Hc|].
    rewrite Store_Get_current. unfold current_value. rewrite E. simpl.
    now apply (In_entry_pair _ _ _ Ht).
Qed.

Lemma X6_SeekFirst_pass_visits_every_entry_witness :
  let s := run_ops (fst StoreConstructor)
             [OpSet (Some ["b"%byte]) (Some ["2"%byte]);
              OpSet (Some ["a"%byte]) None;
              OpSet (Some ["c"%byte]) (Some [])] in
  exists w1 visited,
    Iterator_SeekFirst s (mkIterator None INil INil None) = Ok w1
    /\ Iterator_collect 4 s w1 = Ok visited
    /\ visited = [(Some ["a"%byte], None); (Some ["b"%byte], Some ["2"%byte]);
                  (Some ["c"%byte], Some [])].
Proof.
  intros s.
  destruct (X6_SeekFirst_pass_visits_every_entry s
              (mkIterator None INil INil None) 4 eq_refl)
    as (w1 & visited & H1 & H2 & H3 & _).
  - simpl. lia.
  - exists w1, visited. split; [exact H1|]. split; [exact H2 | exact H3].
Defined.

Lemma filter_all {A : Type} (f : A -> bool) (l : list A) :
  forallb f l = true -> List.filter f l = l.
Proof.
  induction l as [|x l IH]; simpl; [reflexivity|].
  intros H. apply andb_true_iff in H as [Hx Hl]. now rewrite Hx, IH.
Qed.

Lemma skipn_rank_filter t k :
  Tree_sorted t = true ->
  skipn (Tree_rank t k) t = List.filter (at_or_above k) t.
Proof.
  induction t as [|[k0 v0] t IH]; intros Hs; simpl; [reflexivity|].
  pose proof (Tree_sorted_tail _ _ Hs) as Hs'.
  unfold at_or_above at 1. simpl.
  destruct (cmp k k0) eqn:E; simpl; [| |now apply IH].
  all: f_equal; symmetry; apply filter_all; apply forallb_forall; intros en Hin;
    assert (L : cmp k0 (fst en) = Lt)
      by (apply (sorted_head_below k0 v0 t (fst en) Hs); now apply in_map);
    unfold at_or_above.
  - apply cmp_eq_iff in E. now rewrite (cmp_content_l k k0 _ E), L.
  - now rewrite (cmp_lt_trans _ _ _ E L).
Qed.

(** X7: on a well-formed store, the reader's loop on Store.Iterator(k)
    visits the entries whose key is not below k, all of them and no other, in
    the order of the store. *)
Theorem X7_Iterator_pass_starts_at_the_key (s : Store) (k : bytes) (fuel : nat) :
  Tree_ok (s_t s) = true -> (length (s_t s) < fuel)%nat ->
  exists w1,
    Store_Iterator s k = Ok w1
    /\ Iterator_collect fuel s w1
       = Ok (map entry_pair (List.filter (at_or_above k) (s_t s))).
Proof.
  intros Hok Hfuel.
  pose proof (Tree_ok_sorted _ Hok) as Hs. pose proof (Tree_ok_typed _ Hok) as Ht.
  unfold Store_Iterator. rewrite Iterator_Seek_landed.
  eexists. split; [reflexivity|].
  rewrite (Iterator_collect_landed s fuel _ Ht) by lia.
  now rewrite (skipn_rank_filter _ k Hs).
Qed.

Lemma X7_Iterator_pass_starts_at_the_key_witness :
  let s := run_ops (fst StoreConstructor)
             [OpSet (Some ["d"%byte]) (Some ["4"%byte]);
              OpSet (Some ["a"%byte]) (Some ["1"%byte]);
              OpSet (Some ["c"%byte]) (Some ["3"%byte])] in
  exists w1,
    Store_Iterator s (Some ["b"%byte]) = Ok w1
    /\ Iterator_collect 4 s w1
       = Ok [(Some ["c"%byte], Some ["3"%byte]); (Some ["d"%byte], Some ["4"%byte])].
Proof.
  intros s.
  apply (X7_Iterator_pass_starts_at_the_key s (Some ["b"%byte]) 4 eq_refl).
  simpl. lia.
Defined.

(** ** Iterator: the nil cursor *)

(** An iterator that [Next] can be called on: it has a cursor, or it has
    an error and [Next] returns before it touches the cursor. *)
Lemma Iterator_Next_live s w :
  e w <> None \/ currErr w <> None ->
  exists w', Iterator_Next s w = Ok w' /\ (e w' <> None \/ currErr w' <> None).
Proof.
  intros Hlive. unfold Iterator_Next.
  destruct (currErr w) as [er|].
  - eexists. split; [reflexivity|]. right. discriminate.
  - destruct (e w) as [en|]; [|destruct Hlive; congruence].
    destruct (Enumerator_Next (s_t s) en) as [[[k v] er] en'].
    eexists. split; [reflexivity|]. left. discriminate.
Qed.

Lemma Iterator_Nexts_live ss : forall w,
  e w <> None \/ currErr w <> None -> exists w', Iterator_Nexts ss w = Ok w'.
Proof.
  induction ss as [|s ss IH]; intros w Hlive; simpl; [eauto|].
  destruct (Iterator_Next_live s w Hlive) as (w1 & -> & Hlive1). now apply IH.
Qed.

(** X8: Seek and SeekFirst return without a panic from any iterator state,
    a closed iterator and an empty store included, and so does every Next
    that follows, whatever the store holds by then: the nil cursor that a
    failed SeekFirst leaves is never dereferenced. *)
Theorem X8_sought_iterator_never_panics (s : Store) (w : Iterator) (k : bytes)
    (ss : list Store) :
  (exists w1 w', Iterator_Seek s w k = Ok w1 /\ Iterator_Nexts ss w1 = Ok w')
  /\ (exists w1 w', Iterator_SeekFirst s w = Ok w1 /\ Iterator_Nexts ss w1 = Ok w')
  /\ (exists w1 w', Store_Iterator s k = Ok w1 /\ Iterator_Nexts ss w1 = Ok w').
Proof.
  assert (Hseek : forall w0, exists w1 w',
            Iterator_Seek s w0 k = Ok w1 /\ Iterator_Nexts ss w1 = Ok w').
  { intros w0. unfold Iterator_Seek. simpl.
    destruct (Iterator_Next_live s
                (mkIterator (Some (mkEnumerator (Tree_rank (s_t s) k) None))
                   INil INil None)) as (w1 & Hw1 & Hlive); [left; discriminate|].
    destruct (Iterator_Nexts_live ss w1 Hlive) as [w' Hw'].
    exists w1, w'. now split. }
  split; [apply Hseek|]. split; [|apply Hseek].
  unfold Iterator_SeekFirst.
  destruct (Tree_SeekFirst (s_t s)) as [[en|] [er|]] eqn:E.
  1,2,3: match goal with |- context [Iterator_Next ?s0 ?w0] =>
           destruct (Iterator_Next_live s0 w0) as (w1 & Hw1 & Hlive);
             [simpl; first [left; discriminate | right; discriminate]|] end;
         destruct (Iterator_Nexts_live ss w1 Hlive) as [w' Hw'];
         exists w1, w'; now split.
  unfold Tree_SeekFirst in E. destruct (s_t s); discriminate.
Qed.

(** X9: Close drops the cursor and nothing else.  The cached entry stays:
    Current, Key, Value and Valid answer as before the Close.  A second Close
    changes nothing.  A Next on the closed iterator panics when the iterator
    had no error, and returns the done state when it had one. *)
Theorem X9_Close_keeps_the_cached_entry (s : Store) (w : Iterator) :
  Iterator_Current (fst (Iterator_Close w)) = Iterator_Current w
  /\ Iterator_Valid (fst (Iterator_Close w)) = Iterator_Valid w
  /\ Iterator_Key (fst (Iterator_Close w)) = Iterator_Key w
  /\ Iterator_Value (fst (Iterator_Close w)) = Iterator_Value w
  /\ Iterator_Close (fst (Iterator_Close w)) = Iterator_Close w
  /\ (currErr w = None -> Iterator_Next s (fst (Iterator_Close w)) = Panic)
  /\ (currErr w <> None ->
      Iterator_Next s (fst (Iterator_Close w))
        = Ok (mkIterator None INil INil (Some iteratorDoneErr))).
Proof.
  split; [reflexivity|]. split; [reflexivity|]. split; [reflexivity|].
  split; [reflexivity|]. split; [reflexivity|].
  unfold Iterator_Next. simpl. split.
  - now intros ->.
  - destruct (currErr w); [reflexivity | congruence].
Qed.

Lemma X9_Close_keeps_the_cached_entry_witness :
  let s := fst (Store_Set (fst StoreConstructor) (Some ["a"%byte]) (Some ["1"%byte])) in
  let w := landed (s_t s) 0 in
  Iterator_Valid (fst (Iterator_Close w)) = true
  /\ Iterator_Next s (fst (Iterator_Close w)) = Panic.
Proof.
  intros s w.
  pose proof (X9_Close_keeps_the_cached_entry s w) as (_ & Hv & _ & _ & _ & Hp & _).
  split; [rewrite Hv; reflexivity | apply Hp; reflexivity].
Defined.

(** ** Batch: what Execute leaves behind, and batches without merges *)

(** X10: whatever Execute returns, nil or a merge error, it leaves the batch
    as NewBatch makes it: the buffered writes are gone, also those a failed
    run did not apply, so that a second Execute changes nothing and returns
    nil; and the merge map is a new map, so that Merge works again, also on
    a batch that had been closed. *)
Theorem X10_Execute_leaves_a_new_batch (w : Batch) (s : Store)
    (order : list (string * AssociativeMergeChain))
    (w' : Batch) (s' : Store) (er : error) :
  Batch_Execute order w s = Ok (w', s', er) ->
  w' = Store_NewBatch s'
  /\ (forall order', range_order w' order' ->
        Batch_Execute order' w' s' = Ok (w', s', None))
  /\ (forall k oper, exists w2,
        Batch_Merge w' k oper = Ok w2
        /\ ms_entries w2 = [(string_of_bytes k, [oper])]).
Proof.
  intros Hex.
  assert (Hw' : w' = mkBatch [] [] (Some ∅)).
  { revert Hex. unfold Batch_Execute.
    destruct (apply_merges order (s_t s)) as [t1 [er1|]].
    - now intros [= <- _ _].
    - destruct (apply_writes 0 (ks w) (vs w) t1); [|discriminate].
      now intros [= <- _ _]. }
  subst w'. split; [reflexivity|]. split.
  - intros order' Ho.
    rewrite (range_order_nil (mkBatch [] [] (Some ∅)) order'
               (map_to_list_empty (A := AssociativeMergeChain)) Ho).
    unfold Batch_Execute. simpl. now destruct s'.
  - intros k oper. eexists. split; [reflexivity|].
    unfold ms_entries. simpl. rewrite lookup_empty. simpl.
    now rewrite insert_empty, map_to_list_singleton.
Qed.

Lemma X10_Execute_leaves_a_new_batch_witness :
  let s := fst (Store_Set (fst StoreConstructor) (Some ["c"%byte]) (Some ["0"%byte])) in
  let w := mkBatch [Some ["c"%byte]] [Some ["9"%byte]]
             (Some (<["b"%string := [failing_op (OperErr "boom")]]> ∅)) in
  let order := [("b"%string, [failing_op (OperErr "boom")])] in
  Batch_Execute order w s = Ok (Store_NewBatch s, s, Some (OperErr "boom"))
  /\ Batch_Execute [] (Store_NewBatch s) s = Ok (Store_NewBatch s, s, None).
Proof.
  intros s w order.
  assert (Hex : Batch_Execute order w s
                = Ok (Store_NewBatch s, s, Some (OperErr "boom"))) by reflexivity.
  split; [exact Hex|].
  apply (proj1 (proj2 (X10_Execute_leaves_a_new_batch w s order _ _ _ Hex))).
  unfold range_order. simpl. constructor.
Defined.

Lemma fold_writes_run_ops kvs : forall t,
  mkStore (fold_left write_entry kvs t) = run_ops (mkStore t) (map entry_op kvs).
Proof.
  induction kvs as [|[k v] kvs IH]; intros t; [reflexivity|].
  simpl. rewrite IH. now destruct v.
Qed.

(** X11: a batch with no merge chain does what the point writes would do,
    one after the other in the order they were buffered, a buffered Set of a
    non-nil value as Store.Set and a buffered Delete or Set of nil as
    Store.Delete; and Execute returns nil. *)
Theorem X11_batch_without_merges_is_point_writes (w : Batch) (s : Store)
    (order : list (string * AssociativeMergeChain)) :
  Batch_ok w -> ms_entries w = [] -> range_order w order ->
  Batch_Execute order w s
    = Ok (Store_NewBatch s,
          run_ops s (map entry_op (combine (ks w) (vs w))), None).
Proof.
  intros Hok Hms Ho. rewrite (range_order_nil w order Hms Ho).
  unfold Batch_Execute. simpl.
  rewrite (apply_writes_parallel _ _ _ Hok), fold_writes_run_ops.
  now destruct s.
Qed.

Lemma X11_batch_without_merges_is_point_writes_witness :
  let s := fst (Store_Set (fst StoreConstructor) (Some ["a"%byte]) (Some ["0"%byte])) in
  let w := Batch_Set (Batch_Delete
                        (Batch_Set (Store_NewBatch s) (Some ["b"%byte]) (Some ["1"%byte]))
                        (Some ["a"%byte]))
             (Some ["b"%byte]) None in
  Batch_Execute [] w s
    = Ok (Store_NewBatch s,
          run_ops s [OpSet (Some ["b"%byte]) (Some ["1"%byte]);
                     OpDelete (Some ["a"%byte]); OpDelete (Some ["b"%byte])],
          None).
Proof.
  intros s w.
  apply (X11_batch_without_merges_is_point_writes w s []).
  - reflexivity.
  - unfold ms_entries. simpl. apply map_to_list_empty.
  - unfold range_order, ms_entries. simpl. rewrite map_to_list_empty. constructor.
Defined.

(** ** Batch: merge chains and the order of the range *)

(** X13: the range order decides which failing chain ends Execute.  For
    every key whose chain fails on the value the key has before the batch,
    there is an order of the range over the merge map in which Execute
    returns that chain's error with the store untouched. *)
Theorem X13_any_failing_chain_can_end_Execute (w : Batch) (s : Store)
    (m : gmap string AssociativeMergeChain) (key : string)
    (mc : AssociativeMergeChain) (x : bytes) (er : err) :
  ms w = Some m -> m !! key = Some mc ->
  AssociativeMergeChain_Merge mc (bytes_of_string key)
    (fst (Store_Get s (bytes_of_string key))) = (x, Some er) ->
  exists order,
    range_order w order
    /\ Batch_Execute order w s = Ok (Store_NewBatch s, s, Some er).
Proof.
  intros Hm Hl Hfail. rewrite Store_Get_current in Hfail. simpl in Hfail.
  exists ((key, mc) :: map_to_list (delete key m)). split.
  - unfold range_order, ms_entries. rewrite Hm. now apply map_to_list_delete.
  - unfold Batch_Execute. cbn [apply_merges]. rewrite Hfail. now destruct s.
Qed.

Lemma X13_any_failing_chain_can_end_Execute_witness :
  let s := fst StoreConstructor in
  let m : gmap string AssociativeMergeChain :=
    <["b"%string := [failing_op (OperErr "b fails")]]>
      (<["a"%string := [failing_op (OperErr "a fails")]]> ∅) in
  let w := mkBatch [] [] (Some m) in
  (exists order, range_order w order
     /\ Batch_Execute order w s = Ok (Store_NewBatch s, s, Some (OperErr "a fails")))
  /\ (exists order, range_order w order
     /\ Batch_Execute order w s = Ok (Store_NewBatch s, s, Some (OperErr "b fails"))).
Proof.
  intros s m w. split.
  - apply (X13_any_failing_chain_can_end_Execute w s m "a"%string
             [failing_op (OperErr "a fails")] None (OperErr "a fails"));
      reflexivity.
  - apply (X13_any_failing_chain_can_end_Execute w s m "b"%string
             [failing_op (OperErr "b fails")] None (OperErr "b fails"));
      reflexivity.
Defined.

Lemma Batch_Merges_chain ops : forall w m k,
  ms w = Some m -> ops <> [] ->
  Batch_Merges w k ops
    = Ok (mkBatch (ks w) (vs w)
            (Some (<[string_of_bytes k :=
                       default [] (m !! string_of_bytes k) ++ ops]> m))).
Proof.
  induction ops as [|oper ops IH]; intros w m k Hm Hne; [easy|].
  cbn [Batch_Merges]. unfold Batch_Merge at 1. rewrite Hm.
  destruct ops as [|oper' ops]; [reflexivity|].
  match goal with |- Batch_Merges ?w1 _ _ = _ =>
    rewrite (IH w1 _ k eq_refl) by discriminate end.
  simpl.
  rewrite lookup_insert_eq, insert_insert_eq. simpl.
  now rewrite <- app_assoc.
Qed.

(** X14: operators merged on one key of a new batch, by one Merge call
    each, make up one chain in the order of the calls; when the fold of that
    chain over the value the key has in the store succeeds, Execute returns
    nil and the key reads as the result of the fold. *)
Theorem X14_merges_on_a_key_run_in_call_order (s : Store) (l : list byte)
    (ops : list AssociativeMerge) (x : bytes)
    (order : list (string * AssociativeMergeChain)) :
  Tree_sorted (s_t s) = true -> ops <> [] ->
  AssociativeMergeChain_Merge ops (Some l) (fst (Store_Get s (Some l))) = (x, None) ->
  exists w,
    Batch_Merges (Store_NewBatch s) (Some l) ops = Ok w
    /\ ms_entries w = [(string_of_bytes (Some l), ops)]
    /\ (range_order w order ->
        exists s', Batch_Execute order w s = Ok (Store_NewBatch s, s', None)
                   /\ Store_Get s' (Some l) = (x, None)).
Proof.
  intros Hs Hne Hfold. rewrite Store_Get_current in Hfold. simpl in Hfold.
  rewrite (Batch_Merges_chain ops (Store_NewBatch s) ∅ (Some l) eq_refl Hne).
  rewrite lookup_empty. cbn [default app ks vs Store_NewBatch].
  eexists. split; [reflexivity|].
  assert (Hent : ms_entries
            (mkBatch [] [] (Some (<[string_of_bytes (Some l) := ops]> ∅)))
          = [(string_of_bytes (Some l), ops)]).
  { unfold ms_entries. simpl. now rewrite insert_empty, map_to_list_singleton. }
  split; [exact Hent|].
  intros Ho. unfold range_order in Ho. rewrite Hent in Ho.
  apply Permutation_singleton_r in Ho. subst order.
  unfold Batch_Execute. cbn [apply_merges].
  rewrite bytes_of_string_of_bytes, Hfold.
  cbn [apply_merges apply_writes ks vs].
  eexists. split; [reflexivity|].
  rewrite Store_Get_current. simpl.
  apply f_equal2; [|reflexivity]. apply current_value_stored.
  rewrite (Tree_Get_apply_value _ _ _ _ Hs), cmp_refl. reflexivity.
Qed.

Lemma X14_merges_on_a_key_run_in_call_order_witness :
  let s := fst (Store_Set (fst StoreConstructor) (Some ["k"%byte]) (Some ["0"%byte])) in
  let ops := [append_op ["x"%byte]; append_op ["y"%byte]] in
  exists w,
    Batch_Merges (Store_NewBatch s) (Some ["k"%byte]) ops = Ok w
    /\ ms_entries w = [(string_of_bytes (Some ["k"%byte]), ops)]
    /\ (range_order w [(string_of_bytes (Some ["k"%byte]), ops)] ->
        exists s',
          Batch_Execute [(string_of_bytes (Some ["k"%byte]), ops)] w s
            = Ok (Store_NewBatch s, s', None)
          /\ Store_Get s' (Some ["k"%byte])
             = (Some ["0"%byte; "x"%byte; "y"%byte], None)).
Proof.
  intros s ops.
  apply (X14_merges_on_a_key_run_in_call_order s ["k"%byte] ops
           (Some ["0"%byte; "x"%byte; "y"%byte])
           [(string_of_bytes (Some ["k"%byte]), ops)]).
  - reflexivity.
  - discriminate.
  - reflexivity.
Defined.

(** ** Batch: a successful Execute does not depend on the range order *)

(** How two keys compare, from how each compares with a third. *)
Lemma cmp_pivot a b c :
  match cmp a c, cmp b c with
  | Lt, Eq | Lt, Gt | Eq, Gt => cmp a b = Lt
  | Eq, Lt | Gt, Lt | Gt, Eq => cmp a b = Gt
  | Eq, Eq => cmp a b = Eq
  | _, _ => True
  end.
Proof.
  destruct (cmp a c) eqn:E1, (cmp b c) eqn:E2; try exact I.
  - apply cmp_eq_iff. apply cmp_eq_iff in E1, E2. congruence.
  - apply cmp_eq_iff in E1. rewrite (cmp_content_l a c b E1). now apply cmp_gt_lt.
  - apply cmp_eq_iff in E1. rewrite (cmp_content_l a c b E1). now apply cmp_gt_lt.
  - apply cmp_eq_iff in E2. now rewrite (cmp_content_r a b c E2).
  - apply cmp_gt_lt in E2. exact (cmp_lt_trans _ _ _ E1 E2).
  - apply cmp_eq_iff in E2. now rewrite (cmp_content_r a b c E2).
  - apply cmp_gt_lt. apply cmp_gt_lt in E1. exact (cmp_lt_trans _ _ _ E2 E1).
Qed.

Lemma Tree_Set_below t k v :
  forallb (key_below k) t = true -> Tree_Set t k v = (k, v) :: t.
Proof.
  destruct t as [|[k0 v0] t]; simpl; [reflexivity|].
  unfold key_below at 1. simpl. now destruct (cmp k k0).
Qed.

Lemma Tree_Delete_below t k :
  forallb (key_below k) t = true -> Tree_Delete t k = t.
Proof.
  destruct t as [|[k0 v0] t]; simpl; [reflexivity|].
  unfold key_below at 1. simpl. now destruct (cmp k k0).
Qed.

Ltac cmp_cases ka kb k0 :=
  let Pab := fresh "Pab" in
  let Pba := fresh "Pba" in
  let Ea := fresh "Ea" in
  let Eb := fresh "Eb" in
  pose proof (cmp_pivot ka kb k0) as Pab;
  pose proof (cmp_pivot kb ka k0) as Pba;
  destruct (cmp ka k0) eqn:Ea; destruct (cmp kb k0) eqn:Eb;
  cbn iota in Pab, Pba;
  repeat (simpl; rewrite ?Ea, ?Eb, ?Pab, ?Pba, ?cmp_refl);
  try reflexivity; try congruence.

Lemma Tree_Set_Set_comm t ka va kb vb :
  cmp ka kb <> Eq ->
  Tree_Set (Tree_Set t ka va) kb vb = Tree_Set (Tree_Set t kb vb) ka va.
Proof.
  intros Hne.
  pose proof (cmp_antisym ka kb) as Hba.
  induction t as [|[k0 v0] t IH]; simpl.
  - destruct (cmp ka kb); simpl in Hba; rewrite Hba; congruence.
  - cmp_cases ka kb k0.
    destruct (cmp ka kb); simpl in Hba; rewrite Hba; congruence.
Qed.

Lemma Tree_Delete_Set_comm t ka va kb :
  Tree_sorted t = true -> cmp ka kb <> Eq ->
  Tree_Delete (Tree_Set t ka va) kb = Tree_Set (Tree_Delete t kb) ka va.
Proof.
  intros Hs Hne.
  pose proof (cmp_antisym ka kb) as Hba.
  induction t as [|[k0 v0] t IH]; simpl.
  - destruct (cmp ka kb); simpl in Hba; rewrite Hba; congruence.
  - pose proof Hs as Hs0. simpl in Hs0. apply andb_true_iff in Hs0 as [Hb Hs'].
    specialize (IH Hs').
    cmp_cases ka kb k0.
    + symmetry. apply Tree_Set_below. exact (key_below_trans _ _ _ Ea Hb).
    + destruct (cmp ka kb); simpl in Hba; rewrite Hba; congruence.
Qed.

Lemma Tree_Delete_Delete_comm t ka kb :
  Tree_sorted t = true ->
  Tree_Delete (Tree_Delete t ka) kb = Tree_Delete (Tree_Delete t kb) ka.
Proof.
  intros Hs.
  induction t as [|[k0 v0] t IH]; simpl; [reflexivity|].
  pose proof Hs as Hs0. simpl in Hs0. apply andb_true_iff in Hs0 as [Hb Hs'].
  specialize (IH Hs').
  cmp_cases ka kb k0.
  - apply Tree_Delete_content. now apply cmp_eq_iff.
  - apply Tree_Delete_below. exact (key_below_trans _ _ _ Eb Hb).
  - symmetry. apply Tree_Delete_below. exact (key_below_trans _ _ _ Ea Hb).
Qed.

(** Writes to two different keys can be swapped. *)
Lemma apply_value_comm t ka xa kb xb :
  Tree_sorted t = true -> cmp ka kb <> Eq ->
  apply_value (apply_value t ka xa) kb xb = apply_value (apply_value t kb xb) ka xa.
Proof.
  intros Hs Hne.
  assert (Hne' : cmp kb ka <> Eq)
    by (rewrite (cmp_antisym ka kb); destruct (cmp ka kb); simpl; congruence).
  destruct xa as [la|], xb as [lb|]; simpl.
  - now apply Tree_Set_Set_comm.
  - now apply Tree_Delete_Set_comm.
  - symmetry. now apply Tree_Delete_Set_comm.
  - now apply Tree_Delete_Delete_comm.
Qed.

Lemma current_value_apply_value_other t k x k' :
  Tree_sorted t = true -> cmp k k' <> Eq ->
  current_value (apply_value t k x) k' = current_value t k'.
Proof.
  intros Hs Hne. apply current_value_Get.
  rewrite (Tree_Get_apply_value _ _ _ _ Hs). now destruct (cmp k k').
Qed.

Lemma bytes_of_string_ne key key' :
  key <> key' -> cmp (bytes_of_string key) (bytes_of_string key') <> Eq.
Proof. intros Hne E. apply Hne. now apply bytes_of_string_inj. Qed.

(** A merge loop that succeeds in one order succeeds in every other, with
    the same tree. *)
Lemma apply_merges_Permutation o1 o2 :
  Permutation o1 o2 ->
  forall t t1, Tree_sorted t = true -> List.NoDup (map fst o1) ->
    apply_merges o1 t = (t1, None) -> apply_merges o2 t = (t1, None).
Proof.
  induction 1 as [|[key mc] l l' HP IH|[kx cx] [ky cy] l|l l' l'' HP1 IH1 HP2 IH2];
    intros t t1 Hs Hnd.
  - easy.
  - simpl in Hnd. apply NoDup_cons_iff in Hnd as [_ Hnd]. simpl.
    destruct (AssociativeMergeChain_Merge mc (bytes_of_string key)
                (current_value t (bytes_of_string key))) as [x [er|]]; [easy|].
    apply IH; [now apply Tree_sorted_apply_value | exact Hnd].
  - simpl in Hnd. apply NoDup_cons_iff in Hnd as [Hfresh _].
    assert (Hne : cmp (bytes_of_string ky) (bytes_of_string kx) <> Eq).
    { apply bytes_of_string_ne. intros ->. apply Hfresh. now left. }
    assert (Hne' : cmp (bytes_of_string kx) (bytes_of_string ky) <> Eq).
    { apply bytes_of_string_ne. intros ->. apply Hfresh. now left. }
    cbn [apply_merges].
    destruct (AssociativeMergeChain_Merge cy (bytes_of_string ky)
                (current_value t (bytes_of_string ky))) as [xy [er|]] eqn:Ey; [easy|].
    rewrite (current_value_apply_value_other _ _ _ _ Hs Hne).
    destruct (AssociativeMergeChain_Merge cx (bytes_of_string kx)
                (current_value t (bytes_of_string kx))) as [xx [er|]] eqn:Ex; [easy|].
    rewrite (current_value_apply_value_other _ _ _ _ Hs Hne'), Ey.
    now rewrite (apply_value_comm _ _ _ _ _ Hs Hne).
  - intros H1. apply IH2; [exact Hs| |now apply IH1].
    apply (Permutation_NoDup (l := map fst l)); [now apply Permutation_map | exact Hnd].
Qed.

(** X12: when Execute returns nil, the order in which the range over the
    merge map yields its keys has no part in the outcome: in any other order
    Execute returns nil too and leaves the same store. *)
Theorem X12_successful_Execute_ignores_range_order (w : Batch) (s : Store)
    (o1 o2 : list (string * AssociativeMergeChain)) (w1 : Batch) (s1 : Store) :
  Tree_sorted (s_t s) = true -> range_order w o1 -> range_order w o2 ->
  Batch_Execute o1 w s = Ok (w1, s1, None) ->
  Batch_Execute o2 w s = Ok (w1, s1, None).
Proof.
  intros Hs Ho1 Ho2. unfold Batch_Execute.
  destruct (apply_merges o1 (s_t s)) as [t1 [er|]] eqn:E1; [discriminate|].
  assert (HP : Permutation o1 o2).
  { unfold range_order in Ho1, Ho2. rewrite Ho1. now symmetry. }
  rewrite (apply_merges_Permutation o1 o2 HP _ _ Hs (range_order_NoDup _ _ Ho1) E1).
  easy.
Qed.

Lemma X12_successful_Execute_ignores_range_order_witness :
  let s := fst (Store_Set (fst StoreConstructor) (Some ["a"%byte]) (Some ["0"%byte])) in
  let ca := [append_op ["x"%byte]] in
  let cb := [append_op ["y"%byte]] in
  let w := mkBatch [Some ["c"%byte]] [Some ["9"%byte]]
             (Some (<["b"%string := cb]> (<["a"%string := ca]> ∅))) in
  Batch_Execute [("b"%string, cb); ("a"%string, ca)] w s
    = Ok (Store_NewBatch s,
          mkStore [(Some ["a"%byte], IBytes (Some ["0"%byte; "x"%byte]));
                   (Some ["b"%byte], IBytes (Some ["y"%byte]));
                   (Some ["c"%byte], IBytes (Some ["9"%byte]))],
          None).
Proof.
  intros s ca cb w.
  apply (X12_successful_Execute_ignores_range_order w s
           [("a"%string, ca); ("b"%string, cb)] [("b"%string, cb); ("a"%string, ca)]).
  - reflexivity.
  - unfold range_order. vm_compute.
    first [apply Permutation_refl | apply perm_swap].
  - unfold range_order. vm_compute.
    first [apply Permutation_refl | apply perm_swap].
  - reflexivity.
Defined.

(** X15: Execute changes only the keys its batch names.  A key that has no
    merge chain and no buffered write reads after Execute as it read before,
    whether Execute returned nil or stopped on a merge error. *)
Theorem X15_Execute_leaves_other_keys_alone (w : Batch) (s : Store)
    (order : list (string * AssociativeMergeChain))
    (w' : Batch) (s' : Store) (er : error) (k : bytes) :
  Batch_ok w -> Tree_sorted (s_t s) = true ->
  Batch_Execute order w s = Ok (w', s', er) ->
  (forall key mc, In (key, mc) order -> cmp (bytes_of_string key) k <> Eq) ->
  last_write k (combine (ks w) (vs w)) = None ->
  Tree_Get (s_t s') k = Tree_Get (s_t s) k /\ Store_Get s' k = Store_Get s k.
Proof.
  intros Hok Hs Hex Hchains Hwrites.
  assert (Hg : Tree_Get (s_t s') k = Tree_Get (s_t s) k).
  { revert Hex. unfold Batch_Execute.
    destruct (apply_merges order (s_t s)) as [t1 er1] eqn:E.
    pose proof (apply_merges_Get_other order _ _ _ k Hs E Hchains) as H1.
    pose proof (apply_merges_sorted order (s_t s) Hs) as Hs1.
    rewrite E in Hs1. simpl in Hs1.
    destruct er1 as [e1|].
    - now intros [= _ <- _].
    - rewrite (apply_writes_parallel _ _ _ Hok). intros [= _ <- _]. simpl.
      now rewrite (Tree_Get_fold_writes _ _ k Hs1), Hwrites. }
  split; [exact Hg|].
  rewrite !Store_Get_current. now rewrite (current_value_Get _ _ _ _ Hg).
Qed.

Lemma X15_Execute_leaves_other_keys_alone_witness :
  let s := fst (Store_Set (fst StoreConstructor) (Some ["z"%byte]) (Some ["0"%byte])) in
  let w := mkBatch [Some ["c"%byte]] [Some ["9"%byte]]
             (Some (<["b"%string := [append_op ["y"%byte]]]> ∅)) in
  let order := [("b"%string, [append_op ["y"%byte]])] in
  let s' := mkStore [(Some ["b"%byte], IBytes (Some ["y"%byte]));
                     (Some ["c"%byte], IBytes (Some ["9"%byte]));
                     (Some ["z"%byte], IBytes (Some ["0"%byte]))] in
  Batch_Execute order w s = Ok (Store_NewBatch s, s', None)
  /\ Store_Get s' (Some ["z"%byte]) = Store_Get s (Some ["z"%byte]).
Proof.
  intros s w order s'.
  assert (Hex : Batch_Execute order w s = Ok (Store_NewBatch s, s', None))
    by reflexivity.
  split; [exact Hex|].
  refine (proj2 (X15_Execute_leaves_other_keys_alone w s order _ s' None
                   (Some ["z"%byte]) eq_refl eq_refl Hex _ eq_refl)).
  intros key mc [[= <- <-] | []]. discriminate.
Defined.
